(** * palworld-server-tool: the player registry and the whitelist store

    A shallow embedding of [service/player.go] and the properties of its
    reconciliation and identity-matching logic.

    The Go code runs against a bbolt database and stores its records as JSON.
    Both are libraries, not part of [player.go]; they are modelled below
    ([Bolt], [Json], [Time]) as far as the service code observes them.  The
    ten functions of [player.go] are transcribed in [Service]. *)

From Stdlib Require Import ZArith String Ascii List Lia Bool.
From stdpp Require Import base option gmap strings list.

#[local] Set Warnings "-clear-no-such-hyp".

Local Open Scope string_scope.
Local Open Scope list_scope.
Local Open Scope Z_scope.

(** ** Go values *)

(** [strings.Contains(s, substr)]. *)
Fixpoint Contains (s substr : string) : bool :=
  String.prefix substr s
  || match s with
     | EmptyString => false
     | String _ s' => Contains s' substr
     end.

(** The pattern that marks a synthetic identifier. *)
Definition placeholder : string := "000000".

(** A Go [error] value.  [ErrNoRecord] is the sentinel that [GetPlayer]
    returns, a variable of package [service] that another file declares; the
    bbolt and encoding/json errors are the ones the calls below can return;
    [ErrNew msg] is [errors.New(msg)]. *)
Inductive error : Type :=
  | ErrNoRecord
  | ErrKeyRequired
  | ErrKeyTooLarge
  | ErrUnmarshalType
  | ErrUnsupportedValue
  | ErrTimeRange
  | ErrNew (msg : string).

(** [err.Error()].  The code compares this text only in [findPlayerKey],
    with the text of its own [errors.New]; no library error has that text. *)
Definition Error (e : error) : string :=
  match e with
  | ErrNoRecord => "no record"
  | ErrKeyRequired => "key required"
  | ErrKeyTooLarge => "key too large"
  | ErrUnmarshalType => "json: cannot unmarshal value into Go value"
  | ErrUnsupportedValue => "json: unsupported value"
  | ErrTimeRange => "Time.MarshalJSON: year outside of range [0,9999]"
  | ErrNew msg => msg
  end.

(** A call that yields a value or an error. *)
Inductive result (A : Type) : Type :=
  | Ok (a : A)
  | Fail (e : error).
Arguments Ok {A} a.
Arguments Fail {A} e.

(** The [error] a Go function returns: [None] is [nil]. *)
Definition err_of {A} (r : result A) : option error :=
  match r with
  | Ok _ => None
  | Fail e => Some e
  end.

(** Code that updates a state [S] and may stop with an error.  The state at
    the moment of the error is kept: what becomes of it is the caller's
    business (a bbolt transaction throws it away). *)
Definition M (S A : Type) : Type := S → S * result A.

Definition ret {S A} (a : A) : M S A := λ s, (s, Ok a).
Definition fail {S A} (e : error) : M S A := λ s, (s, Fail e).
Definition bind {S A B} (m : M S A) (k : A → M S B) : M S B :=
  λ s, match m s with
       | (s', Ok a) => k a s'
       | (s', Fail e) => (s', Fail e)
       end.
Definition lift {S A} (r : result A) : M S A := λ s, (s, r).
Definition update {S} (f : S → S) : M S unit := λ s, (f s, Ok tt).
Definition read {S} : M S S := λ s, (s, Ok s).

Declare Scope go_scope.
Delimit Scope go_scope with go.
Notation "x <- m ;; k" := (bind m (λ x, k))
  (at level 100, m at next level, right associativity) : go_scope.
Notation "m ;; k" := (bind m (λ _, k))
  (at level 100, right associativity) : go_scope.

(** [for _, x := range l { body }], leaving the loop at the first error. *)
Fixpoint for_range {S A} (l : list A) (body : A → M S unit) : M S unit :=
  match l with
  | [] => ret tt
  | x :: l' => bind (body x) (λ _, for_range l' body)
  end.

(** ** Timestamps *)
Module Time.

(** A [time.Time], broken down in its own zone; [offset] is the zone's
    offset east of UTC in seconds. *)
Record t : Type := mk {
  year : Z; month : Z; day : Z;
  hour : Z; minute : Z; second : Z; nanosecond : Z;
  offset : Z
}.

(** The zero value [time.Time{}]: January 1, year 1, 00:00:00 UTC. *)
Definition zero : t := mk 1 1 1 0 0 0 0 0.

Definition digit (c : ascii) : option Z :=
  let n := Z.of_N (N_of_ascii c) in
  if (48 <=? n) && (n <=? 57) then Some (n - 48) else None.

Definition num2 (a b : ascii) : option Z :=
  match digit a, digit b with
  | Some x, Some y => Some (10 * x + y)
  | _, _ => None
  end.

Definition num4 (a b c d : ascii) : option Z :=
  match num2 a b, num2 c d with
  | Some x, Some y => Some (100 * x + y)
  | _, _ => None
  end.

Definition is_leap (y : Z) : bool :=
  (y mod 4 =? 0) && (negb (y mod 100 =? 0) || (y mod 400 =? 0)).

Definition days_in (m y : Z) : Z :=
  if m =? 2 then (if is_leap y then 29 else 28)
  else if (m =? 4) || (m =? 6) || (m =? 9) || (m =? 11) then 30
  else 31.

(** The digits of a fraction of a second, read as nanoseconds: at most
    nine digits count.  Returns the value and what follows the digits. *)
Fixpoint frac (s : string) (scale acc : Z) : Z * string :=
  match s with
  | String c s' =>
      match digit c with
      | Some d => frac s' (scale / 10) (acc + d * scale)
      | None => (acc, s)
      end
  | EmptyString => (acc, s)
  end.

Definition starts_with_digit (s : string) : bool :=
  match s with
  | String c _ => match digit c with Some _ => true | None => false end
  | EmptyString => false
  end.

(** A literal character of the layout. *)
Definition expect (c : ascii) (s : string) : option string :=
  match s with
  | String c' s' => if Ascii.eqb c c' then Some s' else None
  | EmptyString => None
  end.

(** A field of exactly two digits (month, day, minute, second), and the year
    of four. *)
Definition fixed2 (s : string) : option (Z * string) :=
  match s with
  | String a (String b s') =>
      match num2 a b with
      | Some n => Some (n, s')
      | None => None
      end
  | _ => None
  end.

Definition fixed4 (s : string) : option (Z * string) :=
  match s with
  | String a (String b (String c (String d s'))) =>
      match num4 a b c d with
      | Some n => Some (n, s')
      | None => None
      end
  | _ => None
  end.

(** The hour, which [time.Parse] reads as one digit when no second digit
    follows. *)
Definition flex2 (s : string) : option (Z * string) :=
  match s with
  | String a s' =>
      match digit a with
      | Some x =>
          match s' with
          | String b s'' =>
              match digit b with
              | Some y => Some (10 * x + y, s'')
              | None => Some (x, s')
              end
          | EmptyString => Some (x, s')
          end
      | None => None
      end
  | EmptyString => None
  end.

(** The fraction of a second that may follow the seconds: a period or a
    comma and at least one digit. *)
Definition fraction (s : string) : Z * string :=
  match s with
  | String p r =>
      if (Ascii.eqb p "." || Ascii.eqb p ",") && starts_with_digit r
      then frac r 100000000 0
      else (0, s)
  | EmptyString => (0, s)
  end.

(** The zone: [Z], or a sign and [hh:mm]; nothing may follow it. *)
Definition zone (s : string) : option Z :=
  match s with
  | String z EmptyString => if Ascii.eqb z "Z" then Some 0 else None
  | String sg (String h1 (String h2 (String c (String m1 (String m2 EmptyString))))) =>
      match num2 h1 h2, num2 m1 m2 with
      | Some hh, Some mm =>
          if negb (Ascii.eqb c ":") || (24 <? hh) || (60 <? mm) then None
          else if Ascii.eqb sg "+" then Some ((hh * 60 + mm) * 60)
          else if Ascii.eqb sg "-" then Some (- ((hh * 60 + mm) * 60))
          else None
      | _, _ => None
      end
  | _ => None
  end.

(** [time.Parse(time.RFC3339, s)]: [None] when Go returns an error. *)
Definition Parse_RFC3339 (s : string) : option t :=
  '(y, s) ← fixed4 s;
  s ← expect "-" s;
  '(mo, s) ← fixed2 s;
  s ← expect "-" s;
  '(d, s) ← fixed2 s;
  s ← expect "T" s;
  '(h, s) ← flex2 s;
  s ← expect ":" s;
  '(mi, s) ← fixed2 s;
  s ← expect ":" s;
  '(sec, s) ← fixed2 s;
  let '(ns, s) := fraction s in
  off ← zone s;
  if (mo <? 1) || (12 <? mo) || (d <? 1) || (days_in mo y <? d)
     || (23 <? h) || (59 <? mi) || (59 <? sec)
  then None
  else Some (mk y mo d h mi sec ns off).

End Time.

(** ** Stored values: JSON documents *)
Module Json.

(** An IEEE-754 binary64, given by its bit pattern. *)
Record float64 : Type := F64 { bits : Z }.

(** Neither an infinity nor a NaN: the exponent field is not all ones. *)
Definition finite (f : float64) : bool :=
  negb (Z.land (Z.shiftr (bits f) 52) 2047 =? 2047).

(** A stored value, as the document that its bytes spell.  Scalars are kept
    as the Go values they stand for: the writer's integer and floating
    point literals and its RFC 3339 time strings are read back unchanged by
    the reader, so a number member is an [Int] or a [Float] and a time
    member is a [Stamp].  [Raw] stands for bytes that are not JSON. *)
#[local] Unset Elimination Schemes.
Inductive doc : Type :=
  | Null
  | Str (s : string)
  | Int (n : Z)
  | Float (f : float64)
  | Stamp (t : Time.t)
  | Obj (members : list (string * doc))
  | Raw (bytes : string).
#[local] Set Elimination Schemes.

(** Reading one member into a field of each Go type.  As in Go, [null]
    leaves the field as it is. *)
Definition as_string (old : string) (d : doc) : result string :=
  match d with
  | Str s => Ok s
  | Null => Ok old
  | _ => Fail ErrUnmarshalType
  end.

Definition as_int (old : Z) (d : doc) : result Z :=
  match d with
  | Int n => Ok n
  | Null => Ok old
  | _ => Fail ErrUnmarshalType
  end.

Definition as_float (old : float64) (d : doc) : result float64 :=
  match d with
  | Float f => Ok f
  | Null => Ok old
  | _ => Fail ErrUnmarshalType
  end.

Definition as_time (old : Time.t) (d : doc) : result Time.t :=
  match d with
  | Stamp t => Ok t
  | Null => Ok old
  | _ => Fail ErrUnmarshalType
  end.

(** Writing a scalar.  Go refuses infinities and NaNs, and times whose year
    is not in [0, 9999]. *)
Definition of_float (f : float64) : result doc :=
  if finite f then Ok (Float f) else Fail ErrUnsupportedValue.

Definition of_time (t : Time.t) : result doc :=
  if (0 <=? Time.year t) && (Time.year t <=? 9999)
  then Ok (Stamp t) else Fail ErrTimeRange.

(** [json.Unmarshal(v, &x)] for a struct [x]: the members are read in
    order, each by [field], into the value built so far; a document that is
    not an object is an error, except [null], which changes nothing. *)
Fixpoint members_into {A} (field : string → doc → A → result A)
    (ms : list (string * doc)) (x : A) : result A :=
  match ms with
  | [] => Ok x
  | (name, d) :: ms' =>
      match field name d x with
      | Ok x' => members_into field ms' x'
      | Fail e => Fail e
      end
  end.

Definition Unmarshal {A} (field : string → doc → A → result A)
    (v : doc) (x : A) : result A :=
  match v with
  | Obj ms => members_into field ms x
  | Null => Ok x
  | _ => Fail ErrUnmarshalType
  end.

End Json.

(** ** The bbolt store *)
Module Bolt.

Abbreviation key := string.
Abbreviation value := Json.doc.

(** A bucket: its pairs in key order, the order that [ForEach] follows.
    Keys are compared byte by byte. *)
Abbreviation bucket := (list (key * value)).

Definition MaxKeySize : Z := 32768.

(** [len(k)], in bytes. *)
Definition len (k : key) : Z := Z.of_nat (String.length k).

(** [b.Get(k)]: [None] is the nil slice of a missing key. *)
Fixpoint Get (k : key) (b : bucket) : option value :=
  match b with
  | [] => None
  | (k', v) :: b' => if String.eqb k k' then Some v else Get k b'
  end.

(** Where [Put] writes: over the pair of an equal key, or before the first
    greater key. *)
Fixpoint insert (k : key) (v : value) (b : bucket) : bucket :=
  match b with
  | [] => [(k, v)]
  | (k', v') :: b' =>
      match String.compare k k' with
      | Eq => (k, v) :: b'
      | Lt => (k, v) :: (k', v') :: b'
      | Gt => (k', v') :: insert k v b'
      end
  end.

(** [b.Put(k, v)]. *)
Definition Put (k : key) (v : value) : M bucket unit :=
  if len k =? 0 then fail ErrKeyRequired
  else if MaxKeySize <? len k then fail ErrKeyTooLarge
  else update (insert k v).

Definition remove (k : key) (b : bucket) : bucket :=
  List.filter (λ kv, negb (String.eqb k kv.1)) b.

(** [b.Delete(k)]: a missing key is not an error. *)
Definition Delete (k : key) : M bucket unit := update (remove k).

(** [b.ForEach(fn)]: [fn] is called on every pair that the bucket holds
    when the iteration starts, in key order, until it returns an error. *)
Definition ForEach {S} (b : bucket) (fn : key → value → M S unit) : M S unit :=
  for_range b (λ kv, fn kv.1 kv.2).

(** The database file.  The [players] bucket is made when the database is
    opened, before any call of [player.go], which uses it without a nil
    check; the [whitelist] bucket is made on the first write to it. *)
Record DB : Type := mkDB {
  players : bucket;
  whitelist : option bucket
}.

(** [tx.Bucket([]byte("players"))] and the code that uses it. *)
Definition in_players {A} (m : M bucket A) : M DB A :=
  λ tx, let '(b, r) := m (players tx) in (mkDB b (whitelist tx), r).

(** The same for the whitelist bucket, which may be missing. *)
Definition in_whitelist {A} (m : M (option bucket) A) : M DB A :=
  λ tx, let '(w, r) := m (whitelist tx) in (mkDB (players tx) w, r).

(** [tx.CreateBucketIfNotExists(name)]: the bucket, made empty if missing. *)
Definition CreateBucketIfNotExists (w : option bucket) : bucket :=
  match w with
  | Some b => b
  | None => []
  end.

(** Code that runs on the bucket that [CreateBucketIfNotExists] returned. *)
Definition created {A} (m : M bucket A) : M (option bucket) A :=
  λ w, let '(b, r) := m (CreateBucketIfNotExists w) in (Some b, r).

(** [db.Update(fn)]: [fn] runs on a private copy; its writes are committed
    when it returns nil and dropped when it returns an error. *)
Definition Update (db : DB) (fn : M DB unit) : DB * option error :=
  match fn db with
  | (tx, Ok _) => (tx, None)
  | (_, Fail e) => (db, Some e)
  end.

(** [db.View(fn)]: a read-only transaction. *)
Definition View {A} (db : DB) (fn : DB → A) : A := fn db.

End Bolt.

(** ** The record types of package [database] *)
Module Database.
Import Json.

(** Modelled from the spec: the struct [database.Player], which is declared
    in [internal/database] and not in [player.go].  Its fields are those of
    the data model's PlayerRecord, under the names that [player.go] uses. *)
Module Player.
Record t : Type := mk {
  PlayerUid : string;
  SteamId : string;
  Nickname : string;
  Ip : string;
  Ping : float64;
  LocationX : float64;
  LocationY : float64;
  Level : Z;
  LastOnline : Time.t;
  SaveLastOnline : string
}.

(** [var player database.Player]. *)
Definition zero : t :=
  mk "" "" "" "" (F64 0) (F64 0) (F64 0) 0 Time.zero "".

(** Assignments to a field. *)
Definition set_PlayerUid (x : string) (p : t) : t :=
  mk x (SteamId p) (Nickname p) (Ip p) (Ping p) (LocationX p)
     (LocationY p) (Level p) (LastOnline p) (SaveLastOnline p).
Definition set_SteamId (x : string) (p : t) : t :=
  mk (PlayerUid p) x (Nickname p) (Ip p) (Ping p) (LocationX p)
     (LocationY p) (Level p) (LastOnline p) (SaveLastOnline p).
Definition set_Nickname (x : string) (p : t) : t :=
  mk (PlayerUid p) (SteamId p) x (Ip p) (Ping p) (LocationX p)
     (LocationY p) (Level p) (LastOnline p) (SaveLastOnline p).
Definition set_Ip (x : string) (p : t) : t :=
  mk (PlayerUid p) (SteamId p) (Nickname p) x (Ping p) (LocationX p)
     (LocationY p) (Level p) (LastOnline p) (SaveLastOnline p).
Definition set_Ping (x : float64) (p : t) : t :=
  mk (PlayerUid p) (SteamId p) (Nickname p) (Ip p) x (LocationX p)
     (LocationY p) (Level p) (LastOnline p) (SaveLastOnline p).
Definition set_LocationX (x : float64) (p : t) : t :=
  mk (PlayerUid p) (SteamId p) (Nickname p) (Ip p) (Ping p) x
     (LocationY p) (Level p) (LastOnline p) (SaveLastOnline p).
Definition set_LocationY (x : float64) (p : t) : t :=
  mk (PlayerUid p) (SteamId p) (Nickname p) (Ip p) (Ping p) (LocationX p)
     x (Level p) (LastOnline p) (SaveLastOnline p).
Definition set_Level (x : Z) (p : t) : t :=
  mk (PlayerUid p) (SteamId p) (Nickname p) (Ip p) (Ping p) (LocationX p)
     (LocationY p) x (LastOnline p) (SaveLastOnline p).
Definition set_LastOnline (x : Time.t) (p : t) : t :=
  mk (PlayerUid p) (SteamId p) (Nickname p) (Ip p) (Ping p) (LocationX p)
     (LocationY p) (Level p) x (SaveLastOnline p).
Definition set_SaveLastOnline (x : string) (p : t) : t :=
  mk (PlayerUid p) (SteamId p) (Nickname p) (Ip p) (Ping p) (LocationX p)
     (LocationY p) (Level p) (LastOnline p) x.
End Player.

(** Modelled from the spec: the struct [database.OnlinePlayer], the data
    model's OnlinePlayerSnapshot. *)
Module OnlinePlayer.
Record t : Type := mk {
  PlayerUid : string;
  SteamId : string;
  Nickname : string;
  Ip : string;
  Ping : float64;
  LocationX : float64;
  LocationY : float64;
  Level : Z
}.
End OnlinePlayer.

(** Modelled from the spec: the struct [database.TersePlayer], the data
    model's TersePlayerView: the identity and display fields of a record,
    without the session fields. *)
Module TersePlayer.
Record t : Type := mk {
  PlayerUid : string;
  SteamId : string;
  Nickname : string;
  Level : Z;
  LastOnline : Time.t
}.

Definition zero : t := mk "" "" "" 0 Time.zero.
End TersePlayer.

(** Modelled from the spec: the struct [database.PlayerW], the data model's
    WhitelistEntry. *)
Module PlayerW.
Record t : Type := mk {
  Name : string;
  SteamID : string;
  PlayerUID : string
}.

Definition zero : t := mk "" "" "".
End PlayerW.

(** [r] then [k], for calls without a state. *)
Definition and_then {A B} (r : result A) (k : A → result B) : result B :=
  match r with
  | Ok a => k a
  | Fail e => Fail e
  end.

(** [json.Marshal(p)] for a [Player]: one member per field, in the order of
    the fields. *)
Definition Marshal_Player (p : Player.t) : result doc :=
  and_then (of_float (Player.Ping p)) (λ ping,
  and_then (of_float (Player.LocationX p)) (λ x,
  and_then (of_float (Player.LocationY p)) (λ y,
  and_then (of_time (Player.LastOnline p)) (λ last,
  Ok (Obj [ ("player_uid", Str (Player.PlayerUid p));
            ("steam_id", Str (Player.SteamId p));
            ("nickname", Str (Player.Nickname p));
            ("ip", Str (Player.Ip p));
            ("ping", ping);
            ("location_x", x);
            ("location_y", y);
            ("level", Int (Player.Level p));
            ("last_online", last);
            ("save_last_online", Str (Player.SaveLastOnline p)) ]))))).

(** One member of a stored document, read into a [Player]; members that the
    struct does not have are skipped. *)
Definition Player_field (name : string) (d : doc) (p : Player.t)
    : result Player.t :=
  if String.eqb name "player_uid" then
    and_then (as_string (Player.PlayerUid p) d) (λ x, Ok (Player.set_PlayerUid x p))
  else if String.eqb name "steam_id" then
    and_then (as_string (Player.SteamId p) d) (λ x, Ok (Player.set_SteamId x p))
  else if String.eqb name "nickname" then
    and_then (as_string (Player.Nickname p) d) (λ x, Ok (Player.set_Nickname x p))
  else if String.eqb name "ip" then
    and_then (as_string (Player.Ip p) d) (λ x, Ok (Player.set_Ip x p))
  else if String.eqb name "ping" then
    and_then (as_float (Player.Ping p) d) (λ x, Ok (Player.set_Ping x p))
  else if String.eqb name "location_x" then
    and_then (as_float (Player.LocationX p) d) (λ x, Ok (Player.set_LocationX x p))
  else if String.eqb name "location_y" then
    and_then (as_float (Player.LocationY p) d) (λ x, Ok (Player.set_LocationY x p))
  else if String.eqb name "level" then
    and_then (as_int (Player.Level p) d) (λ x, Ok (Player.set_Level x p))
  else if String.eqb name "last_online" then
    and_then (as_time (Player.LastOnline p) d) (λ x, Ok (Player.set_LastOnline x p))
  else if String.eqb name "save_last_online" then
    and_then (as_string (Player.SaveLastOnline p) d)
             (λ x, Ok (Player.set_SaveLastOnline x p))
  else Ok p.

(** [var player database.Player; json.Unmarshal(v, &player)]. *)
Definition Unmarshal_Player (v : doc) : result Player.t :=
  Unmarshal Player_field v Player.zero.

Definition TersePlayer_field (name : string) (d : doc) (p : TersePlayer.t)
    : result TersePlayer.t :=
  let '(TersePlayer.mk uid steam nick lvl last) := p in
  if String.eqb name "player_uid" then
    and_then (as_string uid d) (λ x, Ok (TersePlayer.mk x steam nick lvl last))
  else if String.eqb name "steam_id" then
    and_then (as_string steam d) (λ x, Ok (TersePlayer.mk uid x nick lvl last))
  else if String.eqb name "nickname" then
    and_then (as_string nick d) (λ x, Ok (TersePlayer.mk uid steam x lvl last))
  else if String.eqb name "level" then
    and_then (as_int lvl d) (λ x, Ok (TersePlayer.mk uid steam nick x last))
  else if String.eqb name "last_online" then
    and_then (as_time last d) (λ x, Ok (TersePlayer.mk uid steam nick lvl x))
  else Ok p.

(** [var player database.TersePlayer; json.Unmarshal(v, &player)]. *)
Definition Unmarshal_TersePlayer (v : doc) : result TersePlayer.t :=
  Unmarshal TersePlayer_field v TersePlayer.zero.

(** [json.Marshal(player)] for a [PlayerW]: three strings, never an error. *)
Definition Marshal_PlayerW (w : PlayerW.t) : result doc :=
  Ok (Obj [ ("name", Str (PlayerW.Name w));
            ("steam_id", Str (PlayerW.SteamID w));
            ("player_uid", Str (PlayerW.PlayerUID w)) ]).

Definition PlayerW_field (name : string) (d : doc) (w : PlayerW.t)
    : result PlayerW.t :=
  let '(PlayerW.mk n steam uid) := w in
  if String.eqb name "name" then
    and_then (as_string n d) (λ x, Ok (PlayerW.mk x steam uid))
  else if String.eqb name "steam_id" then
    and_then (as_string steam d) (λ x, Ok (PlayerW.mk n x uid))
  else if String.eqb name "player_uid" then
    and_then (as_string uid d) (λ x, Ok (PlayerW.mk n steam x))
  else Ok w.

(** [var player database.PlayerW; json.Unmarshal(v, &player)]. *)
Definition Unmarshal_PlayerW (v : doc) : result PlayerW.t :=
  Unmarshal PlayerW_field v PlayerW.zero.

End Database.

(** ** [service/player.go] *)
Module Service.
Import Json Bolt Database.
Local Open Scope go_scope.

(** The clock behind [time.Now()]: [clock i] is what the [i]-th call of a
    run returns. *)
Definition Clock : Type := nat → Time.t.

(** *** PutPlayers *)

(** Lines 19-26, the callback of [b.ForEach]; its state is the map
    [existingPlayers]. *)
Definition collect_existing (k : key) (v : value)
    : M (gmap string Player.t) unit :=
  player <- lift (Unmarshal_Player v) ;;
  update (λ existingPlayers, <[Player.PlayerUid player := player]> existingPlayers).

(** Lines 32-35. *)
Definition build_newPlayers (players : list Player.t) : gmap string Player.t :=
  foldl (λ newPlayers p, <[Player.PlayerUid p := p]> newPlayers) ∅ players.

(** Lines 39-55: what becomes of the loop variable [p] before it is
    written. *)
Definition reconcile (existingPlayers : gmap string Player.t) (p : Player.t)
    : Player.t :=
  let p :=
    match existingPlayers !! Player.PlayerUid p with
    | Some existingPlayer =>
        let p := if String.eqb (Player.SteamId p) ""
                 then Player.set_SteamId (Player.SteamId existingPlayer) p
                 else p in
        let p := Player.set_Ip (Player.Ip existingPlayer) p in
        let p := Player.set_Ping (Player.Ping existingPlayer) p in
        let p := Player.set_LocationX (Player.LocationX existingPlayer) p in
        Player.set_LocationY (Player.LocationY existingPlayer) p
    | None => p
    end in
  if negb (String.eqb (Player.SaveLastOnline p) "") then
    match Time.Parse_RFC3339 (Player.SaveLastOnline p) with
    | Some parsedTime => Player.set_LastOnline parsedTime p
    | None => p
    end
  else p.

(** Lines 38-64, one turn of the loop. *)
Definition put_player (existingPlayers : gmap string Player.t) (p : Player.t)
    : M bucket unit :=
  let p := reconcile existingPlayers p in
  v <- lift (Marshal_Player p) ;;
  Put (Player.PlayerUid p) v.

(** Lines 67-73, one turn of the loop. *)
Definition delete_old (newPlayers : gmap string Player.t) (uid : string)
    : M bucket unit :=
  match newPlayers !! uid with
  | Some _ => ret tt
  | None => Delete uid
  end.

(** Lines 15-75, the function given to [db.Update].  Go ranges over
    [existingPlayers] in no fixed order; here it is the order of
    [map_to_list]. *)
Definition PutPlayers_tx (players : list Player.t) : M bucket unit :=
  λ b,
    match ForEach b collect_existing ∅ with
    | (_, Fail err) => (b, Fail err)
    | (existingPlayers, Ok _) =>
        let newPlayers := build_newPlayers players in
        (for_range players (put_player existingPlayers) ;;
         for_range (map_to_list existingPlayers).*1 (delete_old newPlayers)) b
    end.

Definition PutPlayers (db : DB) (players : list Database.Player.t)
    : DB * option error :=
  Update db (in_players (PutPlayers_tx players)).

(** *** PutPlayersOnline *)

(** Lines 83-111, one turn of the loop; [now] is what [time.Now()]
    returns in it. *)
Definition put_online (now : Time.t) (p : OnlinePlayer.t) : M bucket unit :=
  b <- read ;;
  let existingPlayerData := Get (OnlinePlayer.PlayerUid p) b in
  player <-
    match existingPlayerData with
    | None =>
        let player := Player.zero in
        let player := Player.set_PlayerUid (OnlinePlayer.PlayerUid p) player in
        let player := Player.set_SteamId (OnlinePlayer.SteamId p) player in
        ret (Player.set_Nickname (OnlinePlayer.Nickname p) player)
    | Some data =>
        player <- lift (Unmarshal_Player data) ;;
        if String.eqb (Player.SteamId player) ""
           || Contains (Player.SteamId player) "000000"
        then ret (Player.set_SteamId (OnlinePlayer.SteamId p) player)
        else ret player
    end ;;
  let player := Player.set_Ip (OnlinePlayer.Ip p) player in
  let player := Player.set_Ping (OnlinePlayer.Ping p) player in
  let player := Player.set_LocationX (OnlinePlayer.LocationX p) player in
  let player := Player.set_LocationY (OnlinePlayer.LocationY p) player in
  let player := Player.set_Level (OnlinePlayer.Level p) player in
  let player := Player.set_LastOnline now player in
  v <- lift (Marshal_Player player) ;;
  Put (OnlinePlayer.PlayerUid p) v.

(** Lines 82-113. *)
Fixpoint PutPlayersOnline_tx (clock : Clock) (players : list OnlinePlayer.t)
    : M bucket unit :=
  match players with
  | [] => ret tt
  | p :: players' =>
      put_online (clock 0%nat) p ;;
      PutPlayersOnline_tx (λ i, clock (S i)) players'
  end.

Definition PutPlayersOnline (clock : Clock) (db : DB)
    (players : list OnlinePlayer.t) : DB * option error :=
  Update db (in_players (PutPlayersOnline_tx clock players)).

(** *** ListPlayers *)

(** Lines 121-131, the callback of [b.ForEach]; its state is the slice
    [players]. *)
Definition list_player (k : key) (v : value) : M (list TersePlayer.t) unit :=
  if Contains k "000000" then ret tt
  else
    player <- lift (Unmarshal_TersePlayer v) ;;
    update (λ players, (players ++ [player])%list).

Definition ListPlayers (db : DB) : result (list TersePlayer.t) :=
  View db (λ tx,
    let b := Bolt.players tx in
    match ForEach b list_player [] with
    | (_, Fail err) => Fail err
    | (players, Ok _) => Ok players
    end).

(** *** GetPlayer *)

Definition GetPlayer (db : DB) (playerUid : string) : result Player.t :=
  View db (λ tx,
    let b := Bolt.players tx in
    match Get playerUid b with
    | None => Fail ErrNoRecord
    | Some v => Unmarshal_Player v
    end).

(** *** The whitelist *)

(** [matchesCriteria(existingPlayer, player)]. *)
Definition matchesCriteria (existingPlayer player : PlayerW.t) : bool :=
  if negb (String.eqb (PlayerW.PlayerUID player) "")
     && String.eqb (PlayerW.PlayerUID existingPlayer) (PlayerW.PlayerUID player)
  then true
  else if negb (String.eqb (PlayerW.Name player) "")
          && String.eqb (PlayerW.Name existingPlayer) (PlayerW.Name player)
  then true
  else if negb (String.eqb (PlayerW.SteamID player) "")
          && String.eqb (PlayerW.SteamID existingPlayer) (PlayerW.SteamID player)
  then true
  else false.

(** Lines 222-232, the callback of [b.ForEach]; its state is [keyFound].  A
    key of a bucket is never empty, so the copy of [k] is never nil. *)
Definition find_step (player : PlayerW.t) (k : key) (v : value)
    : M (option key) unit :=
  existingPlayer <- lift (Unmarshal_PlayerW v) ;;
  if matchesCriteria existingPlayer player then
    update (λ _, Some k) ;;
    fail (ErrNew "player found")
  else ret tt.

(** [findPlayerKey(b, player)]: the key, [None] for a nil slice. *)
Definition findPlayerKey (b : bucket) (player : PlayerW.t)
    : result (option key) :=
  match ForEach b (find_step player) None with
  | (keyFound, Fail err) =>
      if String.eqb (Error err) "player found" then Ok keyFound
      else Fail err
  | (_, Ok _) => Ok None
  end.

(** Lines 166-193. *)
Definition AddWhitelist_tx (player : PlayerW.t) : M bucket unit :=
  playerData <- lift (Marshal_PlayerW player) ;;
  b <- read ;;
  key <- lift (findPlayerKey b player) ;;
  match key with
  | Some key => Put key playerData
  | None =>
      let newPlayerKey :=
        PlayerW.Name player +:+ "|" +:+ PlayerW.SteamID player +:+ "|"
        +:+ PlayerW.PlayerUID player in
      Put newPlayerKey playerData
  end.

Definition AddWhitelist (db : DB) (player : PlayerW.t) : DB * option error :=
  Update db (in_whitelist (created (AddWhitelist_tx player))).

(** [ListWhitelist] returns its slice together with the error: after a
    failed [Unmarshal] the slice holds the entries read so far. *)
Definition ListWhitelist (db : DB) : list PlayerW.t * option error :=
  View db (λ tx,
    match Bolt.whitelist tx with
    | None => ([], None)
    | Some b =>
        let '(players, r) :=
          ForEach b (λ k v,
            player <- lift (Unmarshal_PlayerW v) ;;
            update (λ players, (players ++ [player])%list)) [] in
        (players, err_of r)
    end).

(** Lines 249-257. *)
Definition RemoveWhitelist_tx (player : PlayerW.t) : M bucket unit :=
  b <- read ;;
  key <- lift (findPlayerKey b player) ;;
  match key with
  | None => fail (ErrNew "player not found in whitelist")
  | Some key => Delete key
  end.

Definition RemoveWhitelist (db : DB) (player : PlayerW.t)
    : DB * option error :=
  Update db (in_whitelist (λ w,
    match w with
    | None => (w, Fail (ErrNew "whitelist bucket does not exist"))
    | Some b =>
        let '(b', r) := RemoveWhitelist_tx player b in (Some b', r)
    end)).

(** Lines 296-310, one turn of the loop. *)
Definition put_entry (player : PlayerW.t) : M bucket unit :=
  playerData <- lift (Marshal_PlayerW player) ;;
  let identifier := PlayerW.PlayerUID player in
  if String.eqb identifier "" then
    let identifier := PlayerW.SteamID player in
    if String.eqb identifier "" then ret tt
    else Put identifier playerData
  else Put identifier playerData.

(** Lines 288-312. *)
Definition PutWhitelist_tx (players : list PlayerW.t) : M bucket unit :=
  b <- read ;;
  ForEach b (λ k v, Delete k) ;;
  for_range players put_entry.

Definition PutWhitelist (db : DB) (players : list PlayerW.t)
    : DB * option error :=
  Update db (in_whitelist (created (PutWhitelist_tx players))).

End Service.

(** ** Vocabulary of the properties *)
Module Props.
Import Json Bolt Database Service.

(** The key set of a bucket. *)
Definition keys (b : bucket) : gset string := list_to_set b.*1.

(** The invariants that bbolt keeps of a bucket: keys are in strictly
    ascending byte order, and no key is empty or longer than
    [MaxKeySize]. *)
Definition valid_key (k : key) : bool :=
  negb (len k =? 0) && negb (MaxKeySize <? len k).

Fixpoint sorted (b : bucket) : bool :=
  match b with
  | [] => true
  | kv :: b' => forallb (λ kv', String.ltb kv.1 kv'.1) b' && sorted b'
  end.

Definition bucket_ok (b : bucket) : bool :=
  sorted b && forallb (λ kv, valid_key kv.1) b.

(** The invariant of the players bucket: every value is the document of a
    record, stored under that record's [player_uid]. *)
Definition keyed_by_uid (b : bucket) : Prop :=
  Forall (λ kv, ∃ p, Unmarshal_Player kv.2 = Ok p ∧ Player.PlayerUid p = kv.1) b.

(** Every value of a whitelist bucket is the document of an entry. *)
Definition entries_ok (b : bucket) : Prop :=
  Forall (λ kv, ∃ e, Unmarshal_PlayerW kv.2 = Ok e) b.

(** The pairs of a whitelist bucket that [player] does not match. *)
Definition no_match (player : PlayerW.t) (b : bucket) : Prop :=
  Forall (λ kv, ∃ e, Unmarshal_PlayerW kv.2 = Ok e
                     ∧ matchesCriteria e player = false) b.

(** The key under which [PutWhitelist] stores an entry, if any. *)
Definition identifier (w : PlayerW.t) : option key :=
  if negb (String.eqb (PlayerW.PlayerUID w) "") then Some (PlayerW.PlayerUID w)
  else if negb (String.eqb (PlayerW.SteamID w) "") then Some (PlayerW.SteamID w)
  else None.

(** The document of a whitelist entry. *)
Definition doc_of (w : PlayerW.t) : value :=
  Obj [ ("name", Str (PlayerW.Name w));
        ("steam_id", Str (PlayerW.SteamID w));
        ("player_uid", Str (PlayerW.PlayerUID w)) ].


(** The pairs of the players bucket that [ListPlayers] reads. *)
Definition listed (b : bucket) : bucket :=
  filter (λ kv, Contains kv.1 placeholder = false) b.

(** Whether a stored whitelist pair matches [player]. *)
Definition stored_match (player : PlayerW.t) (kv : key * value) : bool :=
  match Unmarshal_PlayerW kv.2 with
  | Ok e => matchesCriteria e player
  | Fail _ => false
  end.


(** A terse view and a record agree on the fields that both have. *)
Definition agree (p : Player.t) (t : TersePlayer.t) : Prop :=
  TersePlayer.PlayerUid t = Player.PlayerUid p
  ∧ TersePlayer.SteamId t = Player.SteamId p
  ∧ TersePlayer.Nickname t = Player.Nickname p
  ∧ TersePlayer.Level t = Player.Level p
  ∧ TersePlayer.LastOnline t = Player.LastOnline p.

(** The players bucket is well formed: bbolt's invariants hold and every
    record is stored under its own [player_uid]. *)
Definition players_ok (b : bucket) : Prop :=
  bucket_ok b = true ∧ keyed_by_uid b.

(** The whitelist bucket, if there is one, is well formed. *)
Definition whitelist_ok (w : option bucket) : Prop :=
  match w with
  | Some b => bucket_ok b = true ∧ entries_ok b
  | None => True
  end.


(** The whitelist entry that a stored pair decodes to, if it decodes. *)
Definition entry_of (kv : string * Json.doc) : option PlayerW.t :=
  match Unmarshal_PlayerW kv.2 with
  | Ok e => Some e
  | Fail _ => None
  end.

(** The entries of a whitelist bucket, in key order. *)
Definition entries (b : bucket) : list PlayerW.t := omap entry_of b.

(** What reading a whitelist bucket in key order yields: the entries up to
    the first value that does not decode, and the error met there. *)
Fixpoint read_entries (b : bucket) : list PlayerW.t * result unit :=
  match b with
  | [] => ([], Ok tt)
  | kv :: b' =>
      match Unmarshal_PlayerW kv.2 with
      | Ok e => let '(out, r) := read_entries b' in (e :: out, r)
      | Fail err => ([], Fail err)
      end
  end.


(** An entry whose identifier is longer than a bbolt key may be. *)
Definition too_long (w : PlayerW.t) : bool :=
  match identifier w with
  | Some k => MaxKeySize <? len k
  | None => false
  end.

End Props.

(** ** Sample data *)
Module Sample.
Import Json Bolt Database Service.

(** A player record with the given identity and address. *)
Definition player (uid steam nick ip save : string) : Player.t :=
  Player.mk uid steam nick ip (F64 0) (F64 0) (F64 0) 3 Time.zero save.

(** The document under which a record is stored. *)
Definition stored (p : Player.t) : Json.doc :=
  match Marshal_Player p with
  | Ok v => v
  | Fail _ => Null
  end.

(** An online snapshot of player [uid]. *)
Definition online (uid steam : string) : OnlinePlayer.t :=
  OnlinePlayer.mk uid steam "Al" "9.9.9.9" (F64 0) (F64 0) (F64 0) 7.

(** A clock that stands still. *)
Definition noon : Service.Clock := λ _, Time.mk 2024 5 1 12 0 0 0 0.

(** [s] doubled [n] times over: a string of [2^n] copies of [s]. *)
Fixpoint doubled (n : nat) (s : string) : string :=
  match n with
  | O => s
  | S n' => doubled n' (s +:+ s)
  end.

End Sample.


Import Json Bolt Database Service Props.

(** ** Lemmas on the store *)
Section store.

Lemma for_range_app {S A} (l1 l2 : list A) (body : A → M S unit) s :
  for_range (l1 ++ l2) body s =
  match for_range l1 body s with
  | (s', Ok _) => for_range l2 body s'
  | (s', Fail e) => (s', Fail e)
  end.
Proof.
  revert s. induction l1 as [|x l1 IH]; intros s; simpl; [done|].
  unfold bind. destruct (body x s) as [s' [[]|e]]; [apply IH|done].
Qed.

Lemma compare_refl (k : string) : String.compare k k = Eq.
Proof.
  pose proof (String.compare_antisym k k) as H.
  destruct (String.compare k k); simpl in H; congruence.
Qed.

Lemma compare_Eq_iff (k k' : string) : String.compare k k' = Eq ↔ k = k'.
Proof.
  split; [apply String.compare_eq_iff|intros ->; apply compare_refl].
Qed.

Lemma eqb_false (k k' : string) : k ≠ k' → String.eqb k k' = false.
Proof. intros H. by apply String.eqb_neq. Qed.

Lemma Get_insert_eq k v b : Get k (insert k v b) = Some v.
Proof.
  induction b as [|[k' v'] b IH]; simpl.
  - by rewrite String.eqb_refl.
  - destruct (String.compare k k') eqn:Hc; simpl.
    + by rewrite String.eqb_refl.
    + by rewrite String.eqb_refl.
    + assert (k ≠ k') by (intros ->; rewrite compare_refl in Hc; done).
      by rewrite eqb_false.
Qed.

Lemma Get_insert_ne k k' v b : k ≠ k' → Get k' (insert k v b) = Get k' b.
Proof.
  intros Hne. induction b as [|[k1 v1] b IH]; simpl.
  - rewrite eqb_false; [done|congruence].
  - destruct (String.compare k k1) eqn:Hc; simpl.
    + apply compare_Eq_iff in Hc as <-.
      rewrite eqb_false; [done|congruence].
    + rewrite (eqb_false k' k); [done|congruence].
    + by rewrite IH.
Qed.

Lemma keys_cons k v (b : bucket) : keys ((k, v) :: b) = {[k]} ∪ keys b.
Proof. done. Qed.

Lemma keys_insert k v b : keys (insert k v b) = {[k]} ∪ keys b.
Proof.
  induction b as [|[k1 v1] b IH]; [done|].
  cbn [insert]. destruct (String.compare k k1) eqn:Hc.
  - apply compare_Eq_iff in Hc as <-. rewrite !keys_cons. set_solver.
  - by rewrite !keys_cons.
  - rewrite !keys_cons, IH. set_solver.
Qed.

Lemma Get_remove_eq k b : Get k (remove k b) = None.
Proof.
  induction b as [|[k1 v1] b IH]; simpl; [done|].
  destruct (String.eqb k k1) eqn:He; simpl; [done|].
  by rewrite He.
Qed.

Lemma Get_remove_ne k k' b : k ≠ k' → Get k' (remove k b) = Get k' b.
Proof.
  intros Hne. induction b as [|[k1 v1] b IH]; simpl; [done|].
  destruct (String.eqb k k1) eqn:He; simpl.
  - apply String.eqb_eq in He as <-. rewrite eqb_false; [done|congruence].
  - by rewrite IH.
Qed.

Lemma keys_remove k b : keys (remove k b) = keys b ∖ {[k]}.
Proof.
  induction b as [|[k1 v1] b IH]; [set_solver|].
  unfold remove in *. cbn [List.filter fst].
  destruct (String.eqb k k1) eqn:He; cbn [negb].
  - apply String.eqb_eq in He as <-. rewrite keys_cons, IH. set_solver.
  - apply String.eqb_neq in He. rewrite !keys_cons, IH. set_solver.
Qed.

Lemma Get_None k b : Get k b = None ↔ k ∉ keys b.
Proof.
  induction b as [|[k1 v1] b IH]; [set_solver|].
  cbn [Get]. rewrite keys_cons.
  destruct (String.eqb k k1) eqn:He.
  - apply String.eqb_eq in He as <-. set_solver.
  - apply String.eqb_neq in He. rewrite IH. set_solver.
Qed.


(** What [Put] does when it returns nil, and when it does so. *)
Lemma Put_Ok k v b b' : Put k v b = (b', Ok tt) → b' = insert k v b ∧ valid_key k = true.
Proof.
  unfold Put, valid_key.
  destruct (len k =? 0); [discriminate|].
  destruct (MaxKeySize <? len k); [discriminate|].
  unfold update. by intros [= <-].
Qed.


Lemma Put_result k v b :
  Put k v b = if valid_key k then (insert k v b, Ok tt)
              else (b, Fail (if len k =? 0 then ErrKeyRequired else ErrKeyTooLarge)).
Proof.
  unfold Put, valid_key.
  destruct (len k =? 0); [done|].
  by destruct (MaxKeySize <? len k).
Qed.

End store.

(** ** Lemmas on the documents *)
Section codec.

Lemma Marshal_PlayerW_doc w : Marshal_PlayerW w = Ok (doc_of w).
Proof. done. Qed.

Lemma Unmarshal_PlayerW_doc w : Unmarshal_PlayerW (doc_of w) = Ok w.
Proof. by destruct w. Qed.

Lemma members_into_error {A} (field : string → doc → A → result A) ms x e :
  (∀ n d y e', field n d y = Fail e' → e' = ErrUnmarshalType) →
  members_into field ms x = Fail e → e = ErrUnmarshalType.
Proof.
  intros Hf. revert x. induction ms as [|[n d] ms IH]; intros x; simpl; [done|].
  destruct (field n d x) eqn:Hx; [apply IH|].
  intros [= <-]. eauto.
Qed.

Lemma Unmarshal_error {A} (field : string → doc → A → result A) v x e :
  (∀ n d y e', field n d y = Fail e' → e' = ErrUnmarshalType) →
  Unmarshal field v x = Fail e → e = ErrUnmarshalType.
Proof.
  intros Hf. destruct v; simpl; try congruence.
  by apply members_into_error.
Qed.

Lemma as_string_error o d e : as_string o d = Fail e → e = ErrUnmarshalType.
Proof. destruct d; simpl; congruence. Qed.
Lemma as_int_error o d e : as_int o d = Fail e → e = ErrUnmarshalType.
Proof. destruct d; simpl; congruence. Qed.
Lemma as_float_error o d e : as_float o d = Fail e → e = ErrUnmarshalType.
Proof. destruct d; simpl; congruence. Qed.
Lemma as_time_error o d e : as_time o d = Fail e → e = ErrUnmarshalType.
Proof. destruct d; simpl; congruence. Qed.

Lemma and_then_error {A B} (r : result A) (f : A → B) e :
  and_then r (λ x, Ok (f x)) = Fail e → r = Fail e.
Proof. destruct r; simpl; congruence. Qed.

Lemma Unmarshal_Player_error v e :
  Unmarshal_Player v = Fail e → e = ErrUnmarshalType.
Proof.
  apply Unmarshal_error. intros n d y e'. unfold Player_field.
  repeat (case_match; [intros ?%and_then_error;
    eauto using as_string_error, as_int_error, as_float_error, as_time_error|]).
  done.
Qed.

Lemma Unmarshal_PlayerW_error v e :
  Unmarshal_PlayerW v = Fail e → e = ErrUnmarshalType.
Proof.
  apply Unmarshal_error. intros n d [a b c] e'. unfold PlayerW_field.
  repeat (case_match; [intros ?%and_then_error; eauto using as_string_error|]).
  done.
Qed.
End codec.

(** ** Lemmas on [PutPlayers] *)
Section roster.
Implicit Types (b : bucket) (p : Player.t) (players : list Player.t).
Implicit Types (existingPlayers newPlayers : gmap string Player.t).

Lemma reconcile_uid existingPlayers p :
  Player.PlayerUid (reconcile existingPlayers p) = Player.PlayerUid p.
Proof.
  unfold reconcile.
  destruct (existingPlayers !! Player.PlayerUid p) as [ex|];
    repeat case_match; reflexivity.
Qed.

(** The first loop: the map of the stored records. *)
Lemma collect_existing_dom b m0 :
  keyed_by_uid b →
  ∃ m, ForEach b collect_existing m0 = (m, Ok tt) ∧ dom m = dom m0 ∪ keys b.
Proof.
  unfold ForEach. revert m0.
  induction b as [|[k v] b IH]; intros m0 Hk.
  - exists m0. split; [done|]. unfold keys. set_solver.
  - apply Forall_cons in Hk as [(p & Hp & Hu) Hk]. simpl in Hp, Hu.
    destruct (IH (<[k:=p]> m0) Hk) as (m & Hm & Hd).
    exists m. split.
    + cbn [for_range]. unfold bind at 1. unfold collect_existing at 1.
      cbn [fst snd]. unfold bind, lift, update. rewrite Hp, Hu. exact Hm.
    + rewrite Hd, dom_insert_L, keys_cons. set_solver.
Qed.


Lemma build_newPlayers_dom players :
  dom (build_newPlayers players) = list_to_set (Player.PlayerUid <$> players).
Proof.
  unfold build_newPlayers.
  assert (∀ m0 : gmap string Player.t,
    dom (foldl (λ newPlayers p, <[Player.PlayerUid p := p]> newPlayers) m0 players)
    = dom m0 ∪ list_to_set (Player.PlayerUid <$> players)) as H.
  { induction players as [|p players IH]; intros m0; simpl.
    - set_solver.
    - rewrite IH, dom_insert_L. set_solver. }
  rewrite H. set_solver.
Qed.

(** The second loop, when it ends without an error. *)
Lemma put_players_keys existingPlayers players b b' :
  for_range players (put_player existingPlayers) b = (b', Ok tt) →
  keys b' = keys b ∪ list_to_set (Player.PlayerUid <$> players).
Proof.
  revert b. induction players as [|p players IH]; intros b; simpl.
  - intros [= <-]. set_solver.
  - unfold bind at 1. destruct (put_player existingPlayers p b) as [b1 [[]|e]] eqn:Hp;
      [|discriminate].
    intros H. apply IH in H. rewrite H. clear H IH.
    unfold put_player, bind, lift in Hp.
    destruct (Marshal_Player _) as [v|]; [|discriminate].
    apply Put_Ok in Hp as [-> _]. rewrite keys_insert, reconcile_uid. set_solver.
Qed.

(** The third loop never fails, and removes the keys of the old map that
    the new map lacks, in whatever order they are visited. *)
Lemma delete_old_loop newPlayers (uids : list string) b :
  ∃ b', for_range uids (delete_old newPlayers) b = (b', Ok tt)
        ∧ keys b' = keys b ∖ (list_to_set uids ∖ dom newPlayers)
        ∧ ∀ k, Get k b' = if decide (k ∈ uids ∧ newPlayers !! k = None)
                          then None else Get k b.
Proof.
  revert b. induction uids as [|uid uids IH]; intros b.
  - exists b. split; [done|]. split; [set_solver|].
    intros k. case_decide as H; [|done]. destruct H as [H _]. by apply elem_of_nil in H.
  - cbn [for_range]. unfold bind, delete_old at 1.
    destruct (newPlayers !! uid) eqn:Hn.
    + destruct (IH b) as (b' & Hb & Hk & Hg). exists b'. split; [exact Hb|]. split.
      * rewrite Hk. apply elem_of_dom_2 in Hn. set_solver.
      * intros k. rewrite Hg.
        destruct (decide (k ∈ uids ∧ newPlayers !! k = None)) as [[H1 H2]|H1],
                 (decide (k ∈ uid :: uids ∧ newPlayers !! k = None)) as [[H3 H4]|H3];
          try done.
        -- exfalso. apply H3. split; [by right|done].
        -- apply elem_of_cons in H3 as [->|H3]; [congruence|].
           exfalso. by apply H1.
    + destruct (IH (remove uid b)) as (b' & Hb & Hk & Hg). exists b'.
      split; [exact Hb|]. split.
      * rewrite Hk, keys_remove. apply not_elem_of_dom in Hn. set_solver.
      * intros k. rewrite Hg.
        destruct (decide (k ∈ uids ∧ newPlayers !! k = None)) as [[H1 H2]|H1],
                 (decide (k ∈ uid :: uids ∧ newPlayers !! k = None)) as [[H3 H4]|H3];
          try done.
        -- exfalso. apply H3. split; [by right|done].
        -- apply elem_of_cons in H3 as [->|H3]; [apply Get_remove_eq|].
           exfalso. by apply H1.
        -- apply Get_remove_ne. intros ->. apply H3. split; [left|done].
Qed.







(** The three loops of a call that returns nil. *)
Lemma PutPlayers_Ok db players db' :
  keyed_by_uid (Bolt.players db) →
  PutPlayers db players = (db', None) →
  ∃ existingPlayers b2,
    ForEach (Bolt.players db) collect_existing ∅ = (existingPlayers, Ok tt)
    ∧ dom existingPlayers = keys (Bolt.players db)
    ∧ for_range players (put_player existingPlayers) (Bolt.players db) = (b2, Ok tt)
    ∧ for_range (map_to_list existingPlayers).*1
        (delete_old (build_newPlayers players)) b2 = (Bolt.players db', Ok tt)
    ∧ whitelist db' = whitelist db.
Proof.
  intros Hk. destruct (collect_existing_dom _ ∅ Hk) as (ex & Hex & Hdom).
  unfold PutPlayers, Update, in_players, PutPlayers_tx. rewrite Hex.
  unfold bind.
  destruct (for_range players (put_player ex) (Bolt.players db)) as [b2 [[]|e]] eqn:H2;
    [|discriminate].
  destruct (delete_old_loop (build_newPlayers players) (map_to_list ex).*1 b2)
    as (b3 & H3 & _). rewrite H3. intros [= <-].
  exists ex, b2. repeat split; try done. rewrite Hdom. set_solver.
Qed.

(** No step of [PutPlayers] fails unseen: the first loop ends without an
    error only if every stored value decodes, the second only if every
    merged record is written. *)
Lemma collect_existing_steps b m0 m :
  ForEach b collect_existing m0 = (m, Ok tt) →
  Forall (λ kv, ∃ q, Unmarshal_Player kv.2 = Ok q) b.
Proof.
  unfold ForEach. revert m0. induction b as [|[k v] b IH]; intros m0; [constructor|].
  cbn [for_range]. unfold bind at 1. unfold collect_existing at 1. cbn [fst snd].
  unfold bind, lift, update.
  destruct (Unmarshal_Player v) as [q|e] eqn:Hv; [|discriminate].
  intros H. constructor; [eauto|]. by eapply IH.
Qed.

Lemma put_players_steps existingPlayers players b b' :
  for_range players (put_player existingPlayers) b = (b', Ok tt) →
  Forall (λ p, (∃ v, Marshal_Player (reconcile existingPlayers p) = Ok v)
               ∧ valid_key (Player.PlayerUid p) = true) players.
Proof.
  revert b. induction players as [|p players IH]; intros b; [constructor|].
  cbn [for_range]. unfold bind at 1.
  destruct (put_player existingPlayers p b) as [b1 [[]|e]] eqn:Hp; [|discriminate].
  intros H. constructor; [|by eapply IH].
  unfold put_player, bind, lift in Hp.
  destruct (Marshal_Player _) as [v|] eqn:Hv; [|discriminate].
  apply Put_Ok in Hp as [_ Hk]. rewrite reconcile_uid in Hk. eauto.
Qed.
End roster.

(** ** Lemmas on [PutPlayersOnline] *)
Section online.
Implicit Types (b : bucket) (p : OnlinePlayer.t) (players : list OnlinePlayer.t).

Lemma put_online_cases now p b b' r :
  put_online now p b = (b', r) →
  (b' = b ∧ ∃ e, r = Fail e)
  ∨ (∃ v, b' = insert (OnlinePlayer.PlayerUid p) v b ∧ r = Ok tt).
Proof.
  unfold put_online, bind, read, lift, ret.
  destruct (Get _ b) as [data|].
  - destruct (Unmarshal_Player data) as [player|e]; [|intros [= <- <-]; eauto].
    destruct (_ || _);
      (destruct (Marshal_Player _) as [v|e]; [|intros [= <- <-]; eauto];
       rewrite Put_result; destruct (valid_key _); intros [= <- <-]; eauto).
  - destruct (Marshal_Player _) as [v|e]; [|intros [= <- <-]; eauto].
    rewrite Put_result; destruct (valid_key _); intros [= <- <-]; eauto.
Qed.


Lemma PutPlayersOnline_tx_frame clock players b b' r :
  PutPlayersOnline_tx clock players b = (b', r) →
  (∀ k : string, is_Some (Get k b) → is_Some (Get k b'))
  ∧ (∀ k : string, k ∉ OnlinePlayer.PlayerUid <$> players → Get k b' = Get k b).
Proof.
  revert clock b. induction players as [|p players IH]; intros clock b; simpl.
  - by intros [= <- <-].
  - unfold bind at 1. destruct (put_online (clock 0%nat) p b) as [b1 r1] eqn:Hp.
    apply put_online_cases in Hp as [[-> [e ->]]|(v & -> & ->)].
    + by intros [= <- <-].
    + intros [H1 H2]%IH. split.
      * intros k Hk. apply H1.
        destruct (decide (k = OnlinePlayer.PlayerUid p)) as [->|Hne].
        -- rewrite Get_insert_eq. eauto.
        -- by rewrite Get_insert_ne.
      * intros k [Hne Hk]%not_elem_of_cons. rewrite H2 by done.
        by apply Get_insert_ne.
Qed.

Lemma PutPlayersOnline_tx_app clock l1 l2 b :
  PutPlayersOnline_tx clock (l1 ++ l2) b =
  match PutPlayersOnline_tx clock l1 b with
  | (b1, Ok _) => PutPlayersOnline_tx (λ i, clock (length l1 + i)%nat) l2 b1
  | (b1, Fail e) => (b1, Fail e)
  end.
Proof.
  revert clock b. induction l1 as [|p l1 IH]; intros clock b; simpl; [done|].
  unfold bind. destruct (put_online (clock 0%nat) p b) as [b1 [[]|e]]; [|done].
  apply IH.
Qed.
End online.

(** ** Lemmas on the whitelist *)
Section whitelist.
Implicit Types (b l : bucket) (player stored : PlayerW.t).

Lemma matchesCriteria_or stored player :
  matchesCriteria stored player = true ↔
    (PlayerW.PlayerUID player ≠ "" ∧ PlayerW.PlayerUID stored = PlayerW.PlayerUID player)
    ∨ (PlayerW.Name player ≠ "" ∧ PlayerW.Name stored = PlayerW.Name player)
    ∨ (PlayerW.SteamID player ≠ "" ∧ PlayerW.SteamID stored = PlayerW.SteamID player).
Proof.
  unfold matchesCriteria.
  destruct (String.eqb_spec (PlayerW.PlayerUID player) ""),
           (String.eqb_spec (PlayerW.PlayerUID stored) (PlayerW.PlayerUID player)),
           (String.eqb_spec (PlayerW.Name player) ""),
           (String.eqb_spec (PlayerW.Name stored) (PlayerW.Name player)),
           (String.eqb_spec (PlayerW.SteamID player) ""),
           (String.eqb_spec (PlayerW.SteamID stored) (PlayerW.SteamID player));
    simpl; intuition congruence.
Qed.

Lemma matchesCriteria_zero stored : matchesCriteria stored PlayerW.zero = false.
Proof. reflexivity. Qed.

(** The scan of [findPlayerKey]: it stops at the first pair that does not
    decode or that matches. *)
Lemma find_scan player b (s : option string) :
  match ForEach b (find_step player) s with
  | (s', Ok _) => s' = s ∧ no_match player b
  | (s', Fail e) =>
      ∃ l1 k v l2, b = l1 ++ (k, v) :: l2 ∧ no_match player l1
        ∧ ((∃ stored, Unmarshal_PlayerW v = Ok stored
              ∧ matchesCriteria stored player = true
              ∧ s' = Some k ∧ e = ErrNew "player found")
           ∨ (Unmarshal_PlayerW v = Fail ErrUnmarshalType
              ∧ s' = s ∧ e = ErrUnmarshalType))
  end.
Proof.
  unfold ForEach, no_match. induction b as [|[k v] b IH].
  - split; [done|constructor].
  - cbn [for_range]. unfold bind at 1. unfold find_step at 1.
    cbn [fst snd]. unfold bind at 1, lift.
    destruct (Unmarshal_PlayerW v) as [stored|e] eqn:Hv.
    + destruct (matchesCriteria stored player) eqn:Hm.
      * exists [], k, v, b. split; [done|]. split; [constructor|].
        left. exists stored. done.
      * unfold ret. destruct (for_range b _ s) as [s' [[]|e]].
        -- destruct IH as [-> Hn]. split; [done|]. constructor; [|exact Hn]. eauto.
        -- destruct IH as (l1 & k' & v' & l2 & -> & Hn & Hc).
           exists ((k, v) :: l1), k', v', l2. split; [done|]. split; [|exact Hc].
           constructor; [|exact Hn]. eauto.
    + apply Unmarshal_PlayerW_error in Hv as Hv'. subst e.
      exists [], k, v, b. split; [done|]. split; [constructor|]. by right.
Qed.

Lemma no_match_app_inv player l1 k v l2 stored :
  no_match player (l1 ++ (k, v) :: l2) →
  Unmarshal_PlayerW v = Ok stored → matchesCriteria stored player = false.
Proof.
  intros H Hv. apply Forall_app in H as [_ H]. apply Forall_cons in H as [(e & He & Hm) _].
  simpl in He. congruence.
Qed.

Lemma first_match_unique player l1 k v l2 stored l1' k' v' l2' :
  l1 ++ (k, v) :: l2 = l1' ++ (k', v') :: l2' →
  no_match player l1 → Unmarshal_PlayerW v = Ok stored →
  matchesCriteria stored player = true →
  no_match player l1' →
  (∃ stored', Unmarshal_PlayerW v' = Ok stored' ∧ matchesCriteria stored' player = true)
  ∨ Unmarshal_PlayerW v' = Fail ErrUnmarshalType →
  l1 = l1' ∧ k = k' ∧ v = v' ∧ l2 = l2'.
Proof.
  revert l1'. induction l1 as [|x l1 IH]; intros [|x' l1'] Heq Hn Hv Hm Hn' Hv'.
  - by injection Heq as -> -> ->.
  - injection Heq as <- Heq. apply Forall_cons in Hn' as [(e & He & Hme) _].
    simpl in He. congruence.
  - injection Heq as -> Heq. apply Forall_cons in Hn as [(e & He & Hme) _].
    simpl in He. destruct Hv' as [(st & Hst & Hmst)|Hf]; congruence.
  - injection Heq as -> Heq. apply Forall_cons in Hn as [_ Hn].
    apply Forall_cons in Hn' as [_ Hn'].
    destruct (IH l1' Heq Hn Hv Hm Hn' Hv') as (-> & -> & -> & ->). done.
Qed.

Lemma findPlayerKey_none player b :
  findPlayerKey b player = Ok None ↔ no_match player b.
Proof.
  unfold findPlayerKey. pose proof (find_scan player b None) as H.
  destruct (ForEach b (find_step player) None) as [s' [[]|e]].
  - by destruct H as [_ H].
  - destruct H as (l1 & k & v & l2 & -> & Hn & [(st & Hd & Hm & -> & ->)|(Hd & -> & ->)]);
      simpl; (split; [discriminate|]); intros H.
    + pose proof (no_match_app_inv _ _ _ _ _ _ H Hd). congruence.
    + apply Forall_app in H as [_ H]. apply Forall_cons in H as [(e & He & _) _].
      simpl in He. congruence.
Qed.

Lemma findPlayerKey_first player l1 k v l2 stored :
  no_match player l1 → Unmarshal_PlayerW v = Ok stored →
  matchesCriteria stored player = true →
  findPlayerKey (l1 ++ (k, v) :: l2) player = Ok (Some k).
Proof.
  intros Hn Hv Hm. unfold findPlayerKey.
  pose proof (find_scan player (l1 ++ (k, v) :: l2) None) as H.
  destruct (ForEach _ (find_step player) None) as [s' [[]|e]].
  - destruct H as [_ H]. pose proof (no_match_app_inv _ _ _ _ _ _ H Hv). congruence.
  - destruct H as (l1' & k' & v' & l2' & Heq & Hn'
                   & [(st & Hd & Hm' & -> & ->)|(Hd & -> & ->)]).
    + destruct (first_match_unique _ _ _ _ _ _ _ _ _ _ Heq Hn Hv Hm Hn')
        as (_ & -> & _); eauto.
    + destruct (first_match_unique _ _ _ _ _ _ _ _ _ _ Heq Hn Hv Hm Hn')
        as (_ & _ & -> & _); eauto. congruence.
Qed.

Lemma findPlayerKey_error player b e :
  findPlayerKey b player = Fail e → ¬ entries_ok b.
Proof.
  unfold findPlayerKey. pose proof (find_scan player b None) as H.
  destruct (ForEach b (find_step player) None) as [s' [[]|e']]; [discriminate|].
  destruct H as (l1 & k & v & l2 & -> & Hn & [(st & Hd & Hm & -> & ->)|(Hd & -> & ->)]);
    simpl; [discriminate|]. intros _ H.
  apply Forall_app in H as [_ H]. apply Forall_cons in H as [(e' & He) _].
  simpl in He. congruence.
Qed.

Lemma entries_no_match player b :
  entries_ok b →
  (no_match player b ↔
   existsb (stored_match player) b = false).
Proof.
  unfold entries_ok, no_match. induction b as [|[k v] b IH]; intros H.
  - split; [done|constructor].
  - apply Forall_cons in H as [(e & He) H]. simpl in He. cbn [existsb].
    unfold stored_match at 1. cbn [snd].
    rewrite He, orb_false_iff, Forall_cons, <- (IH H). cbn [snd].
    split.
    + intros [(e' & He' & Hm) Hn]. split; [congruence|done].
    + intros [Hm Hn]. split; [eauto|done].
Qed.

(** Sorted buckets: the pairs around a key. *)
Lemma sorted_middle l1 k v l2 :
  sorted (l1 ++ (k, v) :: l2) = true →
  Forall (λ kv, String.compare kv.1 k = Lt) l1
  ∧ Forall (λ kv, String.compare k kv.1 = Lt) l2.
Proof.
  induction l1 as [|[k1 v1] l1 IH]; cbn [app sorted].
  - intros [Hall _]%andb_true_iff. split; [constructor|].
    apply Forall_forall. intros kv Hin%list_elem_of_In.
    rewrite forallb_forall in Hall. apply Hall in Hin. unfold String.ltb in Hin.
    simpl in Hin. by destruct (String.compare k kv.1).
  - intros [Hall Hs]%andb_true_iff. destruct (IH Hs) as [H1 H2]. split; [|done].
    constructor; [|done]. rewrite forallb_forall in Hall.
    specialize (Hall (k, v)). unfold String.ltb in Hall. simpl in *.
    destruct (String.compare k1 k); try done.
    all: exfalso; assert (false = true) by (apply Hall, in_or_app; right; left; done);
      done.
Qed.

Lemma compare_Lt_ne (k k' : string) : String.compare k k' = Lt → k ≠ k'.
Proof. intros H ->. by rewrite compare_refl in H. Qed.


Lemma remove_in_place l1 k v l2 :
  sorted (l1 ++ (k, v) :: l2) = true →
  remove k (l1 ++ (k, v) :: l2) = l1 ++ l2.
Proof.
  intros [H1 H2]%sorted_middle. unfold remove.
  rewrite List.filter_app. cbn [List.filter fst]. rewrite String.eqb_refl. cbn [negb].
  f_equal.
  - apply forallb_filter_id, forallb_forall. intros kv Hin%list_elem_of_In.
    rewrite Forall_forall in H1. apply H1, compare_Lt_ne in Hin.
    apply negb_true_iff, String.eqb_neq. congruence.
  - apply forallb_filter_id, forallb_forall. intros kv Hin%list_elem_of_In.
    rewrite Forall_forall in H2. apply H2, compare_Lt_ne in Hin.
    by apply negb_true_iff, String.eqb_neq.
Qed.

End whitelist.

Section replace.
Implicit Types (b l : bucket) (players : list PlayerW.t).

(** Clearing the bucket: every key that is visited goes. *)
Lemma clear_loop l b :
  ∃ b', for_range l (λ kv : string * Json.doc, Delete kv.1) b = (b', Ok tt)
        ∧ ∀ kv, kv ∈ b' → kv ∈ b ∧ kv.1 ∉ l.*1.
Proof.
  revert b. induction l as [|[k v] l IH]; intros b.
  - exists b. split; [done|]. intros kv Hin. split; [done|]. apply not_elem_of_nil.
  - destruct (IH (remove k b)) as (b' & Hb & Hin). exists b'. split; [exact Hb|].
    intros kv Hkv. apply Hin in Hkv as [Hr Hl].
    unfold remove in Hr. apply list_elem_of_In, List.filter_In in Hr as [Hr Hne].
    split; [by apply list_elem_of_In|].
    rewrite fmap_cons. apply not_elem_of_cons. split; [|done].
    apply negb_true_iff, String.eqb_neq in Hne. simpl. congruence.
Qed.

Lemma clear_all b : ForEach b (λ k _, Delete k) b = ([], Ok tt).
Proof.
  unfold ForEach.
  change (for_range b (λ kv : string * Json.doc, Delete kv.1) b = ([], Ok tt)).
  destruct (clear_loop b b) as (b' & Hb & Hin). rewrite Hb. f_equal.
  destruct b' as [|kv b']; [done|]. exfalso.
  destruct (Hin kv) as [H1 H2]; [left|]. apply H2, list_elem_of_fmap. eauto.
Qed.

Lemma len_nonempty (k : string) : k ≠ "" → (len k =? 0) = false.
Proof. intros H. apply Z.eqb_neq. unfold len. destruct k; [done|]. simpl. lia. Qed.


Lemma put_entry_identifier w b :
  put_entry w b = match identifier w with
                  | Some k => Put k (doc_of w) b
                  | None => (b, Ok tt)
                  end.
Proof.
  unfold put_entry, identifier, bind, lift. rewrite Marshal_PlayerW_doc.
  destruct (String.eqb (PlayerW.PlayerUID w) ""); simpl; [|done].
  by destruct (String.eqb (PlayerW.SteamID w) "").
Qed.


End replace.

(** ** Lemmas on [ListPlayers] *)
Section listing.
Implicit Types (b : bucket) (out acc : list TersePlayer.t).

Lemma list_loop b acc :
  match ForEach b list_player acc with
  | (acc', Ok _) =>
      ∃ out, acc' = acc ++ out
        ∧ Forall2 (λ kv t, Unmarshal_TersePlayer kv.2 = Ok t) (listed b) out
  | (_, Fail e) =>
      ¬ ∃ out, Forall2 (λ kv t, Unmarshal_TersePlayer kv.2 = Ok t) (listed b) out
  end.
Proof.
  unfold ForEach, listed. revert acc. induction b as [|[k v] b IH]; intros acc.
  - exists []. split; [by rewrite app_nil_r|constructor].
  - cbn [for_range]. unfold bind at 1. unfold list_player at 1. cbn [fst snd].
    rewrite filter_cons. cbn [fst]. unfold placeholder.
    destruct (Contains k "000000") eqn:Hc.
    + rewrite decide_False by done. apply IH.
    + rewrite decide_True by done. unfold bind, lift.
      destruct (Unmarshal_TersePlayer v) as [t|e] eqn:Hv.
      * unfold update. specialize (IH (acc ++ [t])).
        destruct (for_range b _ (acc ++ [t])) as [acc' [[]|e]].
        -- destruct IH as (out & -> & Hout). exists (t :: out).
           split; [by rewrite <- app_assoc|]. by constructor.
        -- intros (out & Hout). apply IH.
           apply Forall2_cons_inv_l in Hout as (t' & out' & _ & Hout' & _). eauto.
      * intros (out & Hout).
        apply Forall2_cons_inv_l in Hout as (t' & out' & Ht & _). simpl in Ht. congruence.
Qed.

Lemma Forall2_functional b out out' :
  Forall2 (λ kv t, Unmarshal_TersePlayer kv.2 = Ok t) b out →
  Forall2 (λ kv t, Unmarshal_TersePlayer kv.2 = Ok t) b out' → out = out'.
Proof.
  intros H. revert out'. induction H as [|kv t b out Ht _ IH]; intros out' H'.
  - by apply Forall2_nil_inv_l in H'.
  - apply Forall2_cons_inv_l in H' as (t' & out'' & Ht' & H' & ->).
    f_equal; [congruence|by apply IH].
Qed.
End listing.

Section terse.
Lemma field_agree n d p t p' t' :
  agree p t → Player_field n d p = Ok p' → TersePlayer_field n d t = Ok t' →
  agree p' t'.
Proof.
  destruct p as [uid steam nick ip ping x y lvl last save], t as [tu ts tn tl tlast].
  unfold agree. cbn. intros (-> & -> & -> & -> & ->).
  unfold Player_field, TersePlayer_field. cbn.
  repeat match goal with
  | |- context [String.eqb n ?s] =>
      destruct (String.eqb_spec n s) as [->|?];
        [cbn; destruct d; cbn; intros H1 H2; try discriminate;
         injection H1 as <-; injection H2 as <-; by cbn|]
  end.
  by intros [= <-] [= <-].
Qed.

Lemma members_agree ms p t p' t' :
  agree p t → members_into Player_field ms p = Ok p' →
  members_into TersePlayer_field ms t = Ok t' → agree p' t'.
Proof.
  revert p t. induction ms as [|[n d] ms IH]; intros p t Ha; simpl.
  - by intros [= <-] [= <-].
  - destruct (Player_field n d p) as [p1|] eqn:Hp; [|discriminate].
    destruct (TersePlayer_field n d t) as [t1|] eqn:Ht; [|discriminate].
    apply IH. eapply field_agree; eauto.
Qed.

Lemma Unmarshal_agree v p t :
  Unmarshal_Player v = Ok p → Unmarshal_TersePlayer v = Ok t → agree p t.
Proof.
  unfold Unmarshal_Player, Unmarshal_TersePlayer, Unmarshal.
  assert (agree Player.zero TersePlayer.zero) as H0 by (repeat split).
  destruct v; try discriminate.
  - by intros [= <-] [= <-].
  - by apply members_agree.
Qed.
End terse.

(** ** The invariants of the store are kept *)
Section invariants.
Implicit Types (b : bucket) (k : string).

Lemma compare_Lt_trans (s1 s2 s3 : string) :
  String.compare s1 s2 = Lt → String.compare s2 s3 = Lt → String.compare s1 s3 = Lt.
Proof.
  revert s2 s3. induction s1 as [|a s1 IH]; intros [|b s2] [|c s3]; simpl; try done.
  unfold Ascii.compare.
  destruct (N.compare_spec (N_of_ascii a) (N_of_ascii b)) as [Hab|Hab|Hab]; try done;
    destruct (N.compare_spec (N_of_ascii b) (N_of_ascii c)) as [Hbc|Hbc|Hbc]; try done;
    intros H1 H2.
  - rewrite Hab, Hbc, N.compare_refl. eauto.
  - rewrite Hab. by rewrite (proj2 (N.compare_lt_iff _ _) Hbc).
  - rewrite <- Hbc. by rewrite (proj2 (N.compare_lt_iff _ _) Hab).
  - assert (N_of_ascii a < N_of_ascii c)%N as Hac by lia.
    by rewrite (proj2 (N.compare_lt_iff _ _) Hac).
Qed.

Lemma sorted_cons k v b :
  sorted ((k, v) :: b) = true ↔
  Forall (λ kv, String.compare k kv.1 = Lt) b ∧ sorted b = true.
Proof.
  cbn [sorted fst]. rewrite andb_true_iff, forallb_forall, Forall_forall.
  split; intros [H1 H2]; (split; [|done]); intros kv Hin.
  - apply list_elem_of_In, H1 in Hin. unfold String.ltb in Hin.
    by destruct (String.compare k kv.1).
  - apply list_elem_of_In, H1 in Hin. unfold String.ltb. by rewrite Hin.
Qed.

Lemma Forall_insert (P : string * Json.doc → Prop) k v b :
  P (k, v) → Forall P b → Forall P (insert k v b).
Proof.
  intros Hk. induction 1 as [|[k1 v1] b H1 Hb IH]; cbn [insert].
  - by constructor.
  - destruct (String.compare k k1); repeat constructor; done.
Qed.

Lemma Forall_remove (P : string * Json.doc → Prop) k b :
  Forall P b → Forall P (remove k b).
Proof.
  unfold remove. rewrite !Forall_forall. intros H kv Hin.
  apply list_elem_of_In, List.filter_In in Hin as [Hin _]. by apply H, list_elem_of_In.
Qed.

Lemma sorted_insert k v b : sorted b = true → sorted (insert k v b) = true.
Proof.
  induction b as [|[k1 v1] b IH]; [done|].
  intros [Hall Hs]%sorted_cons. cbn [insert].
  destruct (String.compare k k1) eqn:Hc.
  - apply compare_Eq_iff in Hc as ->. by apply sorted_cons.
  - apply sorted_cons. split; [|by apply sorted_cons].
    constructor; [done|]. eapply Forall_impl; [exact Hall|].
    intros kv Hkv. simpl in *. by eapply compare_Lt_trans.
  - apply sorted_cons. split; [|by apply IH].
    apply Forall_insert; [|done]. simpl.
    rewrite String.compare_antisym, Hc. done.
Qed.

Lemma sorted_remove k b : sorted b = true → sorted (remove k b) = true.
Proof.
  induction b as [|[k1 v1] b IH]; [done|].
  intros [Hall Hs]%sorted_cons. unfold remove in *. cbn [List.filter fst].
  destruct (negb (String.eqb k k1)); [|by apply IH].
  apply sorted_cons. split; [|by apply IH]. by apply (Forall_remove _ k).
Qed.

Lemma bucket_ok_insert k v b :
  valid_key k = true → bucket_ok b = true → bucket_ok (insert k v b) = true.
Proof.
  unfold bucket_ok. intros Hk [Hs Hv]%andb_true_iff. apply andb_true_iff. split.
  - by apply sorted_insert.
  - apply forallb_forall. intros kv Hin. rewrite forallb_forall in Hv.
    assert (Forall (λ kv, valid_key kv.1 = true) (insert k v b)) as HF.
    { apply Forall_insert; [done|]. apply Forall_forall.
      intros kv' Hin'%list_elem_of_In. by apply Hv. }
    rewrite Forall_forall in HF. by apply HF, list_elem_of_In.
Qed.

Lemma bucket_ok_remove k b : bucket_ok b = true → bucket_ok (remove k b) = true.
Proof.
  unfold bucket_ok. intros [Hs Hv]%andb_true_iff. apply andb_true_iff. split.
  - by apply sorted_remove.
  - apply forallb_forall. intros kv Hin. rewrite forallb_forall in Hv.
    unfold remove in Hin. apply List.filter_In in Hin as [Hin _]. by apply Hv.
Qed.










Lemma whitelist_ok_insert k w b :
  valid_key k = true → bucket_ok b = true ∧ entries_ok b →
  bucket_ok (insert k (doc_of w) b) = true ∧ entries_ok (insert k (doc_of w) b).
Proof.
  intros Hk [Hok He]. split; [by apply bucket_ok_insert|].
  apply Forall_insert; [|done]. exists w. apply Unmarshal_PlayerW_doc.
Qed.

Lemma AddWhitelist_keeps_ok db player :
  whitelist_ok (whitelist db) → whitelist_ok (whitelist (AddWhitelist db player).1).
Proof.
  intros Hok. unfold AddWhitelist, Update, in_whitelist, created.
  destruct (AddWhitelist_tx player _) as [b' [[]|e]] eqn:H; [|done]. simpl.
  assert (bucket_ok (CreateBucketIfNotExists (whitelist db)) = true
          ∧ entries_ok (CreateBucketIfNotExists (whitelist db))) as Hb.
  { destruct (whitelist db); [done|]. split; [done|constructor]. }
  unfold AddWhitelist_tx, bind, lift, read in H. rewrite Marshal_PlayerW_doc in H.
  destruct (findPlayerKey _ player) as [[key|]|e]; [| |discriminate];
    apply Put_Ok in H as [-> Hv]; by apply whitelist_ok_insert.
Qed.

Lemma RemoveWhitelist_keeps_ok db player :
  whitelist_ok (whitelist db) → whitelist_ok (whitelist (RemoveWhitelist db player).1).
Proof.
  intros Hok. unfold RemoveWhitelist, Update, in_whitelist.
  destruct (whitelist db) as [b|] eqn:Hw; [|simpl; by rewrite Hw].
  destruct (RemoveWhitelist_tx player b) as [b' [[]|e]] eqn:H; simpl; [|by rewrite Hw].
  unfold RemoveWhitelist_tx, bind, lift, read in H.
  destruct (findPlayerKey b player) as [[key|]|e]; try discriminate.
  injection H as <-. destruct Hok as [Hb He].
  split; [by apply bucket_ok_remove|by apply Forall_remove].
Qed.

Lemma put_entries_ok players b b' r :
  for_range players put_entry b = (b', r) →
  bucket_ok b = true ∧ entries_ok b → bucket_ok b' = true ∧ entries_ok b'.
Proof.
  revert b. induction players as [|w players IH]; intros b; simpl.
  - by intros [= <- _].
  - unfold bind at 1. rewrite put_entry_identifier.
    destruct (identifier w) as [k|]; [|apply IH].
    rewrite Put_result. destruct (valid_key k) eqn:Hk; [|by intros [= <- _]].
    intros H Hok. eapply IH; [exact H|]. by apply whitelist_ok_insert.
Qed.

Lemma PutWhitelist_keeps_ok db players :
  whitelist_ok (whitelist db) → whitelist_ok (whitelist (PutWhitelist db players).1).
Proof.
  intros Hok. unfold PutWhitelist, Update, in_whitelist, created.
  destruct (PutWhitelist_tx players _) as [b' [[]|e]] eqn:H; [|done]. simpl.
  unfold PutWhitelist_tx, bind, read in H. rewrite clear_all in H.
  eapply put_entries_ok; [exact H|]. split; [done|constructor].
Qed.
End invariants.

Lemma Forall2_elem_r {A B} (P : A → B → Prop) (l : list A) (k : list B) (y : B) :
  Forall2 P l k → y ∈ k → ∃ x, x ∈ l ∧ P x y.
Proof.
  induction 1 as [|x y' l k Hxy _ IH]; intros Hin; [by apply elem_of_nil in Hin|].
  apply elem_of_cons in Hin as [->|Hin].
  - exists x. split; [left|done].
  - destruct (IH Hin) as (x' & Hx' & HP). exists x'. split; [by right|done].
Qed.

(** ** The player registry *)

(** C1, as stated, fails on a roster that holds a snapshot without a
    [player_uid]: bbolt refuses the empty key, [PutPlayers] returns that
    error after it has written the snapshots before it, and the transaction
    is dropped.  The stale record stays, the new one is not created, and the
    key set is not the roster's uid set. *)
Lemma PutPlayers_empty_uid_not_synchronized :
  let db := mkDB [("old", Sample.stored (Sample.player "old" "s1" "Al" "1.1.1.1" ""))]
                 None in
  let roster := [Sample.player "new" "" "Cy" "" ""; Sample.player "" "" "Bob" "" ""] in
  PutPlayers db roster = (db, Some ErrKeyRequired)
  ∧ keys (Bolt.players (PutPlayers db roster).1)
    ≠ list_to_set (Player.PlayerUid <$> roster).
Proof.
  intros db roster.
  assert (PutPlayers db roster = (db, Some ErrKeyRequired)) as H
    by (vm_compute; reflexivity).
  split; [exact H|]. rewrite H. intros Heq.
  assert ("new" ∈ keys (Bolt.players (db, Some ErrKeyRequired).1)) as Hin
    by (rewrite Heq; set_solver).
  apply elem_of_list_to_set in Hin. simpl in Hin.
  apply list_elem_of_singleton in Hin. discriminate.
Qed.

(** C1, amended: on a players bucket in which every record is stored under
    its own [player_uid], a call of [PutPlayers] that returns nil leaves
    exactly the [player_uid]s of the roster as keys: every roster uid is
    present, every other key is gone. *)
Theorem PutPlayers_full_synchronization db players db' :
  keyed_by_uid (Bolt.players db) →
  PutPlayers db players = (db', None) →
  keys (Bolt.players db') = list_to_set (Player.PlayerUid <$> players)
  ∧ ∀ k : string,
      is_Some (Get k (Bolt.players db')) ↔ k ∈ Player.PlayerUid <$> players.
Proof.
  intros Hk H.
  destruct (PutPlayers_Ok _ _ _ Hk H) as (ex & b2 & _ & Hdom & H2 & H3 & _).
  apply put_players_keys in H2.
  destruct (delete_old_loop (build_newPlayers players) (map_to_list ex).*1 b2)
    as (b3 & H3' & Hkeys & _).
  rewrite H3 in H3'. injection H3' as <-.
  assert (keys (Bolt.players db') = list_to_set (Player.PlayerUid <$> players)) as Heq.
  { rewrite Hkeys, H2, build_newPlayers_dom.
    assert (list_to_set (map_to_list ex).*1 = dom ex) as ->.
    { apply set_eq. intros k. rewrite elem_of_list_to_set, elem_of_dom.
      rewrite list_elem_of_fmap. split.
      - intros ([k' p] & -> & Hin). apply elem_of_map_to_list in Hin. eauto.
      - intros [p Hp]. exists (k, p). split; [done|]. by apply elem_of_map_to_list. }
    rewrite Hdom. apply set_eq. intros k.
    destruct (decide (k ∈ (list_to_set (Player.PlayerUid <$> players) : gset string)));
      set_solver. }
  split; [exact Heq|].
  intros k. rewrite <- not_eq_None_Some, Get_None, Heq, elem_of_list_to_set.
  split; [|tauto]. intros Hnn. by destruct (decide (k ∈ Player.PlayerUid <$> players)).
Qed.

Lemma PutPlayers_full_synchronization_witness :
  let db := mkDB [("a", Sample.stored (Sample.player "a" "s1" "Al" "1.1.1.1" ""));
                  ("b", Sample.stored (Sample.player "b" "s2" "Bo" "2.2.2.2" ""))]
                 None in
  let roster := [Sample.player "c" "" "Cy" "" ""; Sample.player "b" "" "Bob" "" ""] in
  keys (Bolt.players (PutPlayers db roster).1) = list_to_set ["c"; "b"]
  ∧ ∀ k : string,
      is_Some (Get k (Bolt.players (PutPlayers db roster).1)) ↔ k ∈ ["c"; "b"].
Proof.
  intros db roster.
  apply (PutPlayers_full_synchronization db roster (PutPlayers db roster).1).
  - repeat constructor; eexists; split; reflexivity.
  - vm_compute. reflexivity.
Defined.







(** C6: [ListPlayers] returns the terse views of the pairs whose key does not
    contain "000000", in key order, and fails only if one of those does not
    decode; a pair whose key contains the pattern is not among them, and when
    records sit under their own uid no listed view has such a uid.
    [GetPlayer] applies no filter: it decodes whatever is stored under the
    key, and returns [ErrNoRecord] exactly when nothing is stored under it. *)
Theorem ListPlayers_skips_placeholders db :
  (∀ out, ListPlayers db = Ok out ↔
     Forall2 (λ kv t, Unmarshal_TersePlayer kv.2 = Ok t) (listed (Bolt.players db)) out)
  ∧ (∀ k v, Contains k placeholder = true → (k, v) ∉ listed (Bolt.players db))
  ∧ (∀ out, keyed_by_uid (Bolt.players db) → ListPlayers db = Ok out →
       Forall (λ t, Contains (TersePlayer.PlayerUid t) placeholder = false) out)
  ∧ (∀ k v, Get k (Bolt.players db) = Some v → GetPlayer db k = Unmarshal_Player v)
  ∧ (∀ k, GetPlayer db k = Fail ErrNoRecord ↔ Get k (Bolt.players db) = None).
Proof.
  assert (∀ out, ListPlayers db = Ok out ↔
     Forall2 (λ kv t, Unmarshal_TersePlayer kv.2 = Ok t) (listed (Bolt.players db)) out)
    as Hlist.
  { intros out. unfold ListPlayers, View.
    pose proof (list_loop (Bolt.players db) []) as H.
    destruct (ForEach _ list_player []) as [acc' [[]|e]].
    - destruct H as (out' & -> & H). simpl. split.
      + by intros [= <-].
      + intros H'. f_equal. eapply Forall2_functional; eauto.
    - split; [discriminate|]. intros H'. exfalso. eauto. }
  split; [exact Hlist|]. split; [|split; [|split]].
  - intros k v Hc Hin. unfold listed in Hin. apply list_elem_of_filter in Hin as [Hf _].
    simpl in Hf. congruence.
  - intros out Hk Hout. apply Hlist in Hout.
    apply Forall_forall. intros t Ht.
    destruct (Forall2_elem_r _ _ _ _ Hout Ht) as (kv & Hkv & Hdec).
    unfold listed in Hkv. apply list_elem_of_filter in Hkv as [Hc Hkv].
    unfold keyed_by_uid in Hk. rewrite Forall_forall in Hk.
    destruct (Hk kv Hkv) as (p & Hp & Hu).
    destruct (Unmarshal_agree _ _ _ Hp Hdec) as [-> _]. by rewrite Hu.
  - intros k v Hg. unfold GetPlayer, View. by rewrite Hg.
  - intros k. unfold GetPlayer, View. destruct (Get k _) as [v|]; [|done].
    split; [|discriminate]. intros H%Unmarshal_Player_error. discriminate.
Qed.

Lemma ListPlayers_skips_placeholders_witness :
  let ghost := Sample.player "00000000000000000000000000000001" "" "" "" "" in
  let al := Sample.player "A1B2" "s1" "Al" "1.1.1.1" "" in
  let db := mkDB [("00000000000000000000000000000001", Sample.stored ghost);
                  ("A1B2", Sample.stored al)] None in
  ListPlayers db = Ok [TersePlayer.mk "A1B2" "s1" "Al" 3 Time.zero]
  ∧ GetPlayer db "00000000000000000000000000000001" = Ok ghost
  ∧ GetPlayer db "missing" = Fail ErrNoRecord.
Proof.
  intros ghost al db.
  destruct (ListPlayers_skips_placeholders db) as (H1 & _ & _ & H2 & H3).
  split; [|split].
  - apply H1. vm_compute. repeat constructor.
  - rewrite (H2 _ (Sample.stored ghost)); vm_compute; reflexivity.
  - apply H3. reflexivity.
Defined.

(** C7: whatever the function given to [db.Update] has written or deleted
    when it stops with an error, [PutPlayers] returns that error and the
    database it leaves is the one it was called on.  No failing step goes
    unseen: [PutPlayers] returns nil only if every stored value decoded and
    every merged record was serialized and written. *)
Theorem PutPlayers_atomic db players :
  (∀ tx e, in_players (PutPlayers_tx players) db = (tx, Fail e) →
     PutPlayers db players = (db, Some e))
  ∧ (∀ db' e, PutPlayers db players = (db', Some e) → db' = db)
  ∧ (∀ db', PutPlayers db players = (db', None) →
       Forall (λ kv, ∃ q, Unmarshal_Player kv.2 = Ok q) (Bolt.players db)
       ∧ ∃ existingPlayers,
           ForEach (Bolt.players db) collect_existing ∅ = (existingPlayers, Ok tt)
           ∧ Forall (λ p, (∃ v, Marshal_Player (reconcile existingPlayers p) = Ok v)
                          ∧ valid_key (Player.PlayerUid p) = true) players).
Proof.
  unfold PutPlayers, Update. split; [|split].
  - intros tx e H. by rewrite H.
  - intros db' e. destruct (in_players _ db) as [tx [[]|e']]; [discriminate|].
    by intros [= <- _].
  - intros db'. unfold in_players, PutPlayers_tx.
    destruct (ForEach (Bolt.players db) collect_existing ∅) as [ex [[]|e]] eqn:H1;
      [|discriminate].
    unfold bind.
    destruct (for_range players (put_player ex) (Bolt.players db)) as [b2 [[]|e]] eqn:H2;
      [|discriminate].
    intros _. split; [by eapply collect_existing_steps|].
    exists ex. split; [done|]. by eapply put_players_steps.
Qed.

Lemma PutPlayers_atomic_witness :
  let db := mkDB [("old", Sample.stored (Sample.player "old" "s1" "Al" "1.1.1.1" ""))]
                 None in
  let new := Sample.player "new" "" "Cy" "" "" in
  let late := Player.set_LastOnline (Time.mk 10000 1 1 0 0 0 0 0)
                (Sample.player "late" "" "Di" "" "") in
  (Get "new" (Bolt.players (in_players (PutPlayers_tx [new; Player.zero]) db).1)
     = Some (Sample.stored new)
   ∧ PutPlayers db [new; Player.zero] = (db, Some ErrKeyRequired))
  ∧ (Get "new" (Bolt.players (in_players (PutPlayers_tx [new; late]) db).1)
       = Some (Sample.stored new)
     ∧ PutPlayers db [new; late] = (db, Some ErrTimeRange)).
Proof.
  intros db new late. split; (split; [vm_compute; reflexivity|]).
  - apply (proj1 (PutPlayers_atomic db [new; Player.zero])
             (in_players (PutPlayers_tx [new; Player.zero]) db).1).
    vm_compute. reflexivity.
  - apply (proj1 (PutPlayers_atomic db [new; late])
             (in_players (PutPlayers_tx [new; late]) db).1).
    vm_compute. reflexivity.
Defined.

(** C9: whether it commits or not, [PutPlayersOnline] removes no key of the
    players bucket and leaves the value under every key that is not a
    [player_uid] of the batch as it was; so a record stored under its own
    [player_uid], when that uid is not in the batch, is still there, the same
    document.  The whitelist is not touched. *)
Theorem PutPlayersOnline_leaves_others clock db players :
  let db' := (PutPlayersOnline clock db players).1 in
  (∀ k : string, is_Some (Get k (Bolt.players db)) → is_Some (Get k (Bolt.players db')))
  ∧ (∀ k : string, k ∉ OnlinePlayer.PlayerUid <$> players →
       Get k (Bolt.players db') = Get k (Bolt.players db))
  ∧ (∀ (k : string) v p,
       Get k (Bolt.players db) = Some v → Unmarshal_Player v = Ok p →
       Player.PlayerUid p = k →
       Player.PlayerUid p ∉ OnlinePlayer.PlayerUid <$> players →
       Get k (Bolt.players db') = Some v)
  ∧ whitelist db' = whitelist db.
Proof.
  unfold PutPlayersOnline, Update, in_players.
  destruct (PutPlayersOnline_tx clock players (Bolt.players db)) as [b' r] eqn:H.
  apply PutPlayersOnline_tx_frame in H as [H1 H2].
  destruct r as [[]|e]; simpl; repeat split; auto.
  intros k v p Hg _ <- Hn. by rewrite H2.
Qed.

Lemma PutPlayersOnline_leaves_others_witness :
  let snap := Sample.online "b" "s9" in
  let db := mkDB [("a", Sample.stored (Sample.player "a" "s1" "Al" "1.1.1.1" ""));
                  ("b", Sample.stored (Sample.player "b" "s2" "Bo" "2.2.2.2" ""))]
                 None in
  is_Some (Get "b" (Bolt.players (PutPlayersOnline Sample.noon db [snap]).1))
  ∧ Get "a" (Bolt.players (PutPlayersOnline Sample.noon db [snap]).1)
    = Some (Sample.stored (Sample.player "a" "s1" "Al" "1.1.1.1" "")).
Proof.
  intros snap db.
  destruct (PutPlayersOnline_leaves_others Sample.noon db [snap]) as (H1 & H2 & _ & _).
  split.
  - apply H1. eexists. vm_compute. reflexivity.
  - rewrite H2; [vm_compute; reflexivity|].
    intros [H|H]%elem_of_cons; [discriminate|by apply elem_of_nil in H].
Defined.

(** ** The whitelist store *)





(** C8: without a whitelist bucket [RemoveWhitelist] returns the error
    "whitelist bucket does not exist" and [ListWhitelist] returns no entry
    and no error.  With a well-formed bucket, [RemoveWhitelist] returns
    "player not found in whitelist" exactly when no stored entry matches; and
    it deletes the first stored entry that matches, and nothing else. *)
Theorem RemoveWhitelist_errors db player :
  (whitelist db = None →
     RemoveWhitelist db player = (db, Some (ErrNew "whitelist bucket does not exist"))
     ∧ ListWhitelist db = ([], None))
  ∧ (∀ b, whitelist db = Some b → bucket_ok b = true → entries_ok b →
       ((RemoveWhitelist db player).2 = Some (ErrNew "player not found in whitelist")
        ↔ existsb (stored_match player) b = false))
  ∧ (∀ l1 k v l2 stored,
       whitelist db = Some (l1 ++ (k, v) :: l2) →
       bucket_ok (l1 ++ (k, v) :: l2) = true →
       no_match player l1 →
       Unmarshal_PlayerW v = Ok stored →
       matchesCriteria stored player = true →
       RemoveWhitelist db player = (mkDB (Bolt.players db) (Some (l1 ++ l2)), None)).
Proof.
  split; [|split].
  - intros Hw. unfold RemoveWhitelist, ListWhitelist, Update, View, in_whitelist.
    by rewrite Hw.
  - intros b Hw _ Hok. rewrite <- (entries_no_match _ _ Hok), <- findPlayerKey_none.
    unfold RemoveWhitelist, Update, in_whitelist, RemoveWhitelist_tx. rewrite Hw.
    unfold bind, read, lift.
    destruct (findPlayerKey b player) as [[key|]|e] eqn:Hf; simpl.
    + split; discriminate.
    + done.
    + by apply findPlayerKey_error in Hf.
  - intros l1 k v l2 stored Hw [Hs _]%andb_true_iff Hn Hv Hm.
    unfold RemoveWhitelist, Update, in_whitelist, RemoveWhitelist_tx. rewrite Hw.
    unfold bind, read, lift. rewrite (findPlayerKey_first _ _ _ _ _ _ Hn Hv Hm).
    unfold Delete, update. by rewrite remove_in_place.
Qed.

Lemma RemoveWhitelist_errors_witness :
  let w := PlayerW.mk "X" "S1" "" in
  let db := mkDB [] (Some [("X|S1|", doc_of w); ("u2", doc_of (PlayerW.mk "Y" "" "u2"))]) in
  (RemoveWhitelist (mkDB [] None) w
     = (mkDB [] None, Some (ErrNew "whitelist bucket does not exist"))
   ∧ ListWhitelist (mkDB [] None) = ([], None))
  ∧ (RemoveWhitelist db (PlayerW.mk "Z" "" "")).2
      = Some (ErrNew "player not found in whitelist")
  ∧ RemoveWhitelist db (PlayerW.mk "" "S1" "")
      = (mkDB [] (Some [("u2", doc_of (PlayerW.mk "Y" "" "u2"))]), None).
Proof.
  intros w db. split; [|split].
  - apply (RemoveWhitelist_errors (mkDB [] None) w). reflexivity.
  - destruct (RemoveWhitelist_errors db (PlayerW.mk "Z" "" "")) as (_ & H & _).
    apply (H _ eq_refl); [reflexivity| |reflexivity].
    repeat (constructor; [eexists; reflexivity|]). constructor.
  - destruct (RemoveWhitelist_errors db (PlayerW.mk "" "S1" "")) as (_ & _ & H).
    apply (H [] "X|S1|" (doc_of w) [("u2", doc_of (PlayerW.mk "Y" "" "u2"))] w);
      try reflexivity. constructor.
Defined.

(** C10: an entry whose three fields are empty matches no entry, not even an
    equal one.  On a whitelist bucket whose values all decode,
    [RemoveWhitelist] of it returns "player not found in whitelist" and
    [AddWhitelist] of it finds no key and writes it under ["||"]. *)
Theorem empty_entry_never_matches :
  (∀ stored, matchesCriteria stored (PlayerW.mk "" "" "") = false)
  ∧ (∀ db b, whitelist db = Some b → entries_ok b →
       RemoveWhitelist db (PlayerW.mk "" "" "")
       = (db, Some (ErrNew "player not found in whitelist")))
  ∧ (∀ db, entries_ok (CreateBucketIfNotExists (whitelist db)) →
       findPlayerKey (CreateBucketIfNotExists (whitelist db)) (PlayerW.mk "" "" "")
       = Ok None
       ∧ AddWhitelist db (PlayerW.mk "" "" "")
         = (mkDB (Bolt.players db)
              (Some (insert "||" (doc_of (PlayerW.mk "" "" ""))
                       (CreateBucketIfNotExists (whitelist db)))), None)).
Proof.
  assert (∀ b, entries_ok b → findPlayerKey b (PlayerW.mk "" "" "") = Ok None) as Hfind.
  { intros b Hok. apply findPlayerKey_none. unfold no_match.
    eapply Forall_impl; [exact Hok|]. intros kv [e He]. eauto. }
  split; [done|]. split.
  - intros db b Hw Hok.
    unfold RemoveWhitelist, Update, in_whitelist, RemoveWhitelist_tx. rewrite Hw.
    unfold bind, read, lift. by rewrite (Hfind b Hok).
  - intros db Hok. split; [by apply Hfind|].
    unfold AddWhitelist, Update, in_whitelist, created, AddWhitelist_tx.
    unfold bind, read, lift. rewrite Marshal_PlayerW_doc, (Hfind _ Hok). reflexivity.
Qed.

Lemma empty_entry_never_matches_witness :
  let db := mkDB [] (Some [("X||", doc_of (PlayerW.mk "X" "" ""));
                           ("||", doc_of (PlayerW.mk "" "" ""))]) in
  RemoveWhitelist db (PlayerW.mk "" "" "")
    = (db, Some (ErrNew "player not found in whitelist"))
  ∧ AddWhitelist (mkDB [] (Some [("X||", doc_of (PlayerW.mk "X" "" ""))]))
      (PlayerW.mk "" "" "") = (db, None).
Proof.
  intros db. destruct empty_entry_never_matches as (_ & H1 & H2).
  split.
  - apply (H1 db _ eq_refl).
    repeat (constructor; [eexists; reflexivity|]). constructor.
  - apply (H2 (mkDB [] (Some [("X||", doc_of (PlayerW.mk "X" "" ""))]))).
    repeat (constructor; [eexists; reflexivity|]). constructor.
Defined.

(** ** Further properties of the service *)

Section online_extra.
Implicit Types (b : bucket) (p : OnlinePlayer.t).


End online_extra.





(** X3: a batch [l1 ++ l2] given to [PutPlayersOnline] is [l1] followed by
    [l2] on the database that [l1] left, with the clock read from where [l1]
    stopped; an error in either part leaves the database of the single call
    as it was before the whole batch. *)
Theorem PutPlayersOnline_batches_compose clock db l1 l2 :
  PutPlayersOnline clock db (l1 ++ l2) =
  match PutPlayersOnline clock db l1 with
  | (db1, None) =>
      match PutPlayersOnline (λ i, clock (length l1 + i)%nat) db1 l2 with
      | (db2, None) => (db2, None)
      | (_, Some e) => (db, Some e)
      end
  | (_, Some e) => (db, Some e)
  end.
Proof.
  unfold PutPlayersOnline, Update, in_players. rewrite PutPlayersOnline_tx_app.
  destruct (PutPlayersOnline_tx clock l1 (Bolt.players db)) as [b1 [[]|e]]; [|done].
  cbn [Bolt.players whitelist].
  by destruct (PutPlayersOnline_tx _ l2 b1) as [b2 [[]|e]].
Qed.

Section roster_extra.
Implicit Types (b : bucket) (p : Player.t) (players : list Player.t).
Implicit Types (existingPlayers newPlayers : gmap string Player.t).



End roster_extra.



(** X6: one value of the players bucket that does not decode as a record
    makes [PutPlayers] fail for every roster, with the decoding error and
    the database unchanged. *)
Theorem PutPlayers_blocked_by_corrupt_value db players l1 k v l2 :
  Bolt.players db = l1 ++ (k, v) :: l2 →
  Forall (λ kv, ∃ q, Unmarshal_Player kv.2 = Ok q) l1 →
  (∀ q, Unmarshal_Player v ≠ Ok q) →
  PutPlayers db players = (db, Some ErrUnmarshalType).
Proof.
  intros Hb Hl1 Hv. unfold PutPlayers, Update, in_players, PutPlayers_tx.
  rewrite Hb. unfold ForEach. rewrite for_range_app.
  assert (∀ m0, ∃ m, for_range l1 (λ kv, collect_existing kv.1 kv.2) m0 = (m, Ok tt))
    as Hpre.
  { clear Hb. induction Hl1 as [|[k1 v1] l1 [q Hq] _ IH]; intros m0; [by exists m0|].
    cbn [for_range]. unfold bind at 1, collect_existing at 1. cbn [fst snd].
    unfold bind, lift, update. simpl in Hq. rewrite Hq. apply IH. }
  destruct (Hpre ∅) as [m ->].
  cbn [for_range]. unfold bind at 1, collect_existing at 1. cbn [fst snd].
  unfold bind at 1, lift.
  destruct (Unmarshal_Player v) as [q|e] eqn:Hq; [by destruct (Hv q)|].
  apply Unmarshal_Player_error in Hq as ->. done.
Qed.

Lemma PutPlayers_blocked_by_corrupt_value_witness :
  let db := mkDB [("a", Sample.stored (Sample.player "a" "s1" "Al" "1.1.1.1" ""));
                  ("b", Raw "{")] None in
  PutPlayers db [] = (db, Some ErrUnmarshalType)
  ∧ PutPlayers db [Sample.player "a" "" "Al" "" ""] = (db, Some ErrUnmarshalType).
Proof.
  intros db. split.
  - apply (PutPlayers_blocked_by_corrupt_value db []
             [("a", Sample.stored (Sample.player "a" "s1" "Al" "1.1.1.1" ""))]
             "b" (Raw "{") []); [reflexivity| |discriminate].
    repeat constructor. eexists. reflexivity.
  - apply (PutPlayers_blocked_by_corrupt_value db [Sample.player "a" "" "Al" "" ""]
             [("a", Sample.stored (Sample.player "a" "s1" "Al" "1.1.1.1" ""))]
             "b" (Raw "{") []); [reflexivity| |discriminate].
    repeat constructor. eexists. reflexivity.
Defined.



Section idempotent.
Implicit Types (b : bucket) (p : Player.t) (players : list Player.t).
Implicit Types (existingPlayers newPlayers : gmap string Player.t).







End idempotent.

Section idempotent2.
Implicit Types (b : bucket) (p : Player.t) (players : list Player.t).
Implicit Types (existingPlayers newPlayers : gmap string Player.t).


End idempotent2.



Section whitelist_extra.
Implicit Types (b l : bucket) (player stored : PlayerW.t).

Lemma scan_stop_unique player l1 k v l2 l1' k' v' l2' :
  l1 ++ (k, v) :: l2 = l1' ++ (k', v') :: l2' →
  no_match player l1 → no_match player l1' →
  ¬ (∃ e, Unmarshal_PlayerW v = Ok e ∧ matchesCriteria e player = false) →
  ¬ (∃ e, Unmarshal_PlayerW v' = Ok e ∧ matchesCriteria e player = false) →
  l1 = l1' ∧ k = k' ∧ v = v' ∧ l2 = l2'.
Proof.
  revert l1'. induction l1 as [|x l1 IH]; intros [|x' l1'] Heq Hn Hn' Hv Hv'.
  - by injection Heq as -> -> ->.
  - injection Heq as <- Heq. apply Forall_cons in Hn' as [Hx _]. by destruct Hv.
  - injection Heq as -> Heq. apply Forall_cons in Hn as [Hx _]. by destruct Hv'.
  - injection Heq as -> Heq. apply Forall_cons in Hn as [_ Hn].
    apply Forall_cons in Hn' as [_ Hn'].
    destruct (IH l1' Heq Hn Hn' Hv Hv') as (-> & -> & -> & ->). done.
Qed.

Lemma findPlayerKey_corrupt player l1 k v l2 :
  no_match player l1 → Unmarshal_PlayerW v = Fail ErrUnmarshalType →
  findPlayerKey (l1 ++ (k, v) :: l2) player = Fail ErrUnmarshalType.
Proof.
  intros Hn Hv. unfold findPlayerKey.
  pose proof (find_scan player (l1 ++ (k, v) :: l2) None) as H.
  assert (¬ (∃ e, Unmarshal_PlayerW v = Ok e ∧ matchesCriteria e player = false)) as Hstop
    by (intros (e & He & _); congruence).
  destruct (ForEach _ (find_step player) None) as [s' [[]|e]].
  - destruct H as [_ H]. apply Forall_app in H as [_ H].
    apply Forall_cons in H as [Hx _]. by destruct Hstop.
  - destruct H as (l1' & k' & v' & l2' & Heq & Hn'
                   & [(st & Hd & Hm' & -> & ->)|(Hd & -> & ->)]); [|done].
    destruct (scan_stop_unique _ _ _ _ _ _ _ _ _ Heq Hn Hn' Hstop) as (_ & _ & -> & _).
    + intros (e & He & Hf). congruence.
    + congruence.
Qed.

Lemma findPlayerKey_found player b k :
  findPlayerKey b player = Ok (Some k) →
  ∃ l1 v l2 stored, b = l1 ++ (k, v) :: l2 ∧ no_match player l1
    ∧ Unmarshal_PlayerW v = Ok stored ∧ matchesCriteria stored player = true.
Proof.
  unfold findPlayerKey. pose proof (find_scan player b None) as H.
  destruct (ForEach b (find_step player) None) as [s' [[]|e]]; [discriminate|].
  destruct H as (l1 & k' & v & l2 & -> & Hn & [(st & Hd & Hm & -> & ->)|(Hd & -> & ->)]);
    simpl; [|discriminate].
  intros [= <-]. by exists l1, v, l2, st.
Qed.

Lemma findPlayerKey_fail player b e :
  findPlayerKey b player = Fail e →
  e = ErrUnmarshalType
  ∧ ∃ l1 k v l2, b = l1 ++ (k, v) :: l2 ∧ no_match player l1
      ∧ Unmarshal_PlayerW v = Fail ErrUnmarshalType.
Proof.
  unfold findPlayerKey. pose proof (find_scan player b None) as H.
  destruct (ForEach b (find_step player) None) as [s' [[]|e']]; [discriminate|].
  destruct H as (l1 & k' & v & l2 & -> & Hn & [(st & Hd & Hm & -> & ->)|(Hd & -> & ->)]);
    simpl; [discriminate|].
  intros [= <-]. split; [done|]. by exists l1, k', v, l2.
Qed.

(** Reading a whitelist bucket. *)
Lemma list_entries_loop l (acc : list PlayerW.t) :
  let body := λ kv : string * Json.doc,
    bind (lift (Unmarshal_PlayerW kv.2))
      (λ player, update (λ players : list PlayerW.t, players ++ [player])) in
  for_range l body acc
  = match read_entries l with
    | (out, r) => (acc ++ out, r)
    end.
Proof.
  intros body.
  assert (∀ kv acc0, body kv acc0 = match Unmarshal_PlayerW kv.2 with
                                     | Ok e => (acc0 ++ [e], Ok tt)
                                     | Fail err => (acc0, Fail err)
                                     end) as Hbody.
  { intros kv acc0. unfold body, bind, lift, update.
    by destruct (Unmarshal_PlayerW kv.2). }
  revert acc. induction l as [|[k v] l IH]; intros acc; cbn [for_range read_entries].
  - unfold ret. by rewrite app_nil_r.
  - unfold bind at 1. rewrite Hbody. cbn [snd].
    destruct (Unmarshal_PlayerW v) as [e|err]; [|by rewrite app_nil_r].
    rewrite IH. destruct (read_entries l) as [out r]. by rewrite <- app_assoc.
Qed.

Lemma ListWhitelist_read db b :
  whitelist db = Some b →
  ListWhitelist db = ((read_entries b).1, err_of (read_entries b).2).
Proof.
  intros Hw. unfold ListWhitelist, View. rewrite Hw. unfold ForEach. cbn [fst snd].
  pose proof (list_entries_loop b []) as H. cbn zeta in H.
  change (λ kv : string * Json.doc, _) with
    (λ kv : string * Json.doc,
      bind (lift (Unmarshal_PlayerW kv.2))
        (λ player, update (λ players : list PlayerW.t, players ++ [player]))).
  rewrite H. by destruct (read_entries b).
Qed.

Lemma entries_cons k v b :
  entries ((k, v) :: b) = match Unmarshal_PlayerW v with
                          | Ok e => e :: entries b
                          | Fail _ => entries b
                          end.
Proof. unfold entries. cbn. unfold entry_of. cbn. by destruct (Unmarshal_PlayerW v). Qed.

Lemma read_entries_ok b : entries_ok b → read_entries b = (entries b, Ok tt).
Proof.
  induction 1 as [|[k v] l [e He] _ IH]; [done|].
  cbn [read_entries]. simpl in He. cbn [snd]. by rewrite He, IH, entries_cons, He.
Qed.

Lemma read_entries_stop l1 k v l2 e :
  entries_ok l1 → Unmarshal_PlayerW v = Fail e →
  read_entries (l1 ++ (k, v) :: l2) = (entries l1, Fail e).
Proof.
  intros Hok Hv. induction Hok as [|[k1 v1] l [e1 He] _ IH].
  - cbn [app read_entries snd]. by rewrite Hv.
  - cbn [app read_entries]. simpl in He. cbn [snd].
    by rewrite He, IH, entries_cons, He.
Qed.

Lemma entries_length b : entries_ok b → length (entries b) = length b.
Proof.
  induction 1 as [|[k v] l [e He] _ IH]; [done|].
  simpl in He. rewrite entries_cons, He. simpl. by f_equal.
Qed.



End whitelist_extra.

(** X8: [AddWhitelist], [RemoveWhitelist] and [PutWhitelist] keep the
    whitelist bucket well formed: sorted valid keys and values that decode
    as entries. *)
Theorem whitelist_bucket_stays_well_formed db :
  whitelist_ok (whitelist db) →
  (∀ player, whitelist_ok (whitelist (AddWhitelist db player).1))
  ∧ (∀ player, whitelist_ok (whitelist (RemoveWhitelist db player).1))
  ∧ (∀ players, whitelist_ok (whitelist (PutWhitelist db players).1)).
Proof.
  intros Hok. split; [|split]; intros x.
  - by apply AddWhitelist_keeps_ok.
  - by apply RemoveWhitelist_keeps_ok.
  - by apply PutWhitelist_keeps_ok.
Qed.

Lemma whitelist_bucket_stays_well_formed_witness :
  whitelist_ok (whitelist
    (RemoveWhitelist
       (AddWhitelist (PutWhitelist (mkDB [] None) [PlayerW.mk "Y" "s" "u"]).1
          (PlayerW.mk "X" "" "")).1
       (PlayerW.mk "" "s" "")).1).
Proof.
  assert (whitelist_ok (whitelist (mkDB [] None))) as H0 by exact I.
  destruct (whitelist_bucket_stays_well_formed _ H0) as (_ & _ & H1).
  destruct (whitelist_bucket_stays_well_formed _ (H1 [PlayerW.mk "Y" "s" "u"]))
    as (H2 & _ & _).
  destruct (whitelist_bucket_stays_well_formed _ (H2 (PlayerW.mk "X" "" "")))
    as (_ & H3 & _).
  exact (H3 (PlayerW.mk "" "s" "")).
Defined.

(** X9: [matchesCriteria] does not depend on the order of its arguments, an
    entry matches itself exactly when one of its fields is not empty, and
    matching is not transitive. *)
Theorem matchesCriteria_symmetric :
  (∀ a b, matchesCriteria a b = matchesCriteria b a)
  ∧ (∀ a, matchesCriteria a a = true ↔ a ≠ PlayerW.mk "" "" "")
  ∧ ¬ (∀ a b c, matchesCriteria a b = true → matchesCriteria b c = true →
                matchesCriteria a c = true).
Proof.
  split; [|split].
  - intros a b. apply eq_true_iff_eq. rewrite !matchesCriteria_or.
    split; (intros [[Hne He]|[[Hne He]|[Hne He]]]; [left|right; left|right; right];
            split; congruence).
  - intros [n s u]. rewrite matchesCriteria_or. cbn. split.
    + intros [[H _]|[[H _]|[H _]]] [= -> -> ->]; done.
    + intros Hne. destruct (decide (u = "")) as [->|Hu]; [|auto].
      destruct (decide (n = "")) as [->|Hn]; [|auto].
      destruct (decide (s = "")) as [->|Hs]; [done|auto].
  - intros H.
    specialize (H (PlayerW.mk "X" "" "") (PlayerW.mk "X" "S" "") (PlayerW.mk "Y" "S" "")
                  eq_refl eq_refl).
    discriminate.
Qed.

(** X10: [findPlayerKey] returns the key of the first pair, in key order,
    whose entry matches; it returns no key exactly when no pair matches; and
    it fails exactly when a value that does not decode comes before any
    match, with the decoding error. *)
Theorem findPlayerKey_first_match b player :
  (∀ k, findPlayerKey b player = Ok (Some k) ↔
     ∃ l1 v l2 stored, b = l1 ++ (k, v) :: l2 ∧ no_match player l1
       ∧ Unmarshal_PlayerW v = Ok stored ∧ matchesCriteria stored player = true)
  ∧ (findPlayerKey b player = Ok None ↔ no_match player b)
  ∧ (∀ e, findPlayerKey b player = Fail e ↔
       e = ErrUnmarshalType
       ∧ ∃ l1 k v l2, b = l1 ++ (k, v) :: l2 ∧ no_match player l1
           ∧ Unmarshal_PlayerW v = Fail ErrUnmarshalType).
Proof.
  split; [|split].
  - intros k. split; [apply findPlayerKey_found|].
    intros (l1 & v & l2 & stored & -> & Hn & Hv & Hm). by eapply findPlayerKey_first.
  - apply findPlayerKey_none.
  - intros e. split; [apply findPlayerKey_fail|].
    intros (-> & l1 & k & v & l2 & -> & Hn & Hv). by apply findPlayerKey_corrupt.
Qed.

Lemma findPlayerKey_first_match_witness :
  let b := [("a", doc_of (PlayerW.mk "Y" "" "a"));
            ("b", doc_of (PlayerW.mk "X" "" "b"));
            ("c", Raw "{");
            ("d", doc_of (PlayerW.mk "X" "" "d"))] in
  findPlayerKey b (PlayerW.mk "X" "" "") = Ok (Some "b")
  ∧ findPlayerKey b (PlayerW.mk "Z" "" "") = Fail ErrUnmarshalType.
Proof.
  intros b. split.
  - apply (proj1 (findPlayerKey_first_match b (PlayerW.mk "X" "" ""))).
    exists [("a", doc_of (PlayerW.mk "Y" "" "a"))], (doc_of (PlayerW.mk "X" "" "b")),
      [("c", Raw "{"); ("d", doc_of (PlayerW.mk "X" "" "d"))], (PlayerW.mk "X" "" "b").
    repeat split. repeat constructor. eexists. split; reflexivity.
  - apply (proj2 (proj2 (findPlayerKey_first_match b (PlayerW.mk "Z" "" "")))).
    split; [done|].
    exists [("a", doc_of (PlayerW.mk "Y" "" "a")); ("b", doc_of (PlayerW.mk "X" "" "b"))],
      "c", (Raw "{"), [("d", doc_of (PlayerW.mk "X" "" "d"))].
    repeat split. repeat (constructor; [eexists; split; reflexivity|]). constructor.
Defined.

(** X15: [ListWhitelist] returns the entries in key order, one for each
    pair, when every value decodes; at the first value that does not decode
    it returns the entries read so far together with the error. *)
Theorem ListWhitelist_reads_in_key_order db b :
  whitelist db = Some b →
  (entries_ok b →
     ListWhitelist db = (entries b, None) ∧ length (entries b) = length b)
  ∧ (∀ l1 k v l2 e, b = l1 ++ (k, v) :: l2 → entries_ok l1 →
       Unmarshal_PlayerW v = Fail e →
       ListWhitelist db = (entries l1, Some e)).
Proof.
  intros Hw. rewrite (ListWhitelist_read _ _ Hw). split.
  - intros Hok. rewrite (read_entries_ok _ Hok). split; [done|by apply entries_length].
  - intros l1 k v l2 e -> Hok Hv. by rewrite (read_entries_stop _ _ _ _ _ Hok Hv).
Qed.

Lemma ListWhitelist_reads_in_key_order_witness :
  let good := [("a", doc_of (PlayerW.mk "Y" "" "a")); ("b", doc_of (PlayerW.mk "X" "" "b"))] in
  ListWhitelist (mkDB [] (Some good)) = ([PlayerW.mk "Y" "" "a"; PlayerW.mk "X" "" "b"], None)
  ∧ ListWhitelist (mkDB [] (Some (good ++ [("c", Raw "{"); ("d", doc_of (PlayerW.mk "Z" "" "d"))])))
    = ([PlayerW.mk "Y" "" "a"; PlayerW.mk "X" "" "b"], Some ErrUnmarshalType).
Proof.
  intros good.
  assert (entries_ok good) as Hok
    by (repeat (constructor; [eexists; reflexivity|]); constructor).
  split.
  - apply (proj1 (ListWhitelist_reads_in_key_order (mkDB [] (Some good)) good eq_refl) Hok).
  - apply (proj2 (ListWhitelist_reads_in_key_order
                    (mkDB [] (Some (good ++ [("c", Raw "{");
                                             ("d", doc_of (PlayerW.mk "Z" "" "d"))])))
                    _ eq_refl) good "c" (Raw "{") [("d", doc_of (PlayerW.mk "Z" "" "d"))]);
      [reflexivity|exact Hok|reflexivity].
Defined.

Section whitelist_extra2.
Implicit Types (b l : bucket) (player stored : PlayerW.t).



Lemma elem_Get b (k : string) v : sorted b = true → (k, v) ∈ b → Get k b = Some v.
Proof.
  induction b as [|[k1 v1] b IH]; [by intros _ ?%elem_of_nil|].
  intros Hs [[= -> ->]|Hin]%elem_of_cons; cbn [Get].
  - by rewrite String.eqb_refl.
  - pose proof Hs as [Hall Hs']%sorted_cons. rewrite Forall_forall in Hall.
    pose proof (compare_Lt_ne _ _ (Hall _ Hin)) as Hne. simpl in Hne.
    rewrite eqb_false by congruence. by apply IH.
Qed.




Lemma identifier_nonempty w k : identifier w = Some k → (len k =? 0) = false.
Proof.
  intros Hid. apply len_nonempty. unfold identifier in Hid.
  destruct (String.eqb_spec (PlayerW.PlayerUID w) ""); simpl in Hid; [|congruence].
  destruct (String.eqb_spec (PlayerW.SteamID w) ""); simpl in Hid; congruence.
Qed.

Lemma put_entries_too_long players b :
  Exists (λ w, too_long w = true) players →
  ∃ b', for_range players put_entry b = (b', Fail ErrKeyTooLarge).
Proof.
  revert b. induction players as [|w players IH]; intros b Hex;
    [by apply Exists_nil in Hex|].
  cbn [for_range]. unfold bind. rewrite put_entry_identifier.
  unfold too_long in Hex.
  destruct (identifier w) as [k|] eqn:Hid.
  - unfold Put. rewrite (identifier_nonempty _ _ Hid).
    destruct (MaxKeySize <? len k) eqn:Hlen; [by eexists|].
    apply Exists_cons in Hex as [Hw|Hex]; [by rewrite Hid, Hlen in Hw|]. by apply IH.
  - apply Exists_cons in Hex as [Hw|Hex]; [by rewrite Hid in Hw|]. by apply IH.
Qed.
End whitelist_extra2.







(** X14: if the identifier of one of the entries is longer than a bbolt
    key may be, [PutWhitelist] fails with [ErrKeyTooLarge] and the database,
    the old whitelist included, is unchanged. *)
Theorem PutWhitelist_rejects_long_identifier db players :
  Exists (λ w, too_long w = true) players →
  PutWhitelist db players = (db, Some ErrKeyTooLarge).
Proof.
  intros Hex. unfold PutWhitelist, Update, in_whitelist, created, PutWhitelist_tx.
  unfold bind, read. rewrite clear_all.
  by destruct (put_entries_too_long players [] Hex) as [b' ->].
Qed.

Lemma PutWhitelist_rejects_long_identifier_witness :
  let db := mkDB [] (Some [("u1", doc_of (PlayerW.mk "X" "" "u1"))]) in
  PutWhitelist db [PlayerW.mk "Y" "" "u2"; PlayerW.mk "Z" (Sample.doubled 16 "0") ""]
  = (db, Some ErrKeyTooLarge).
Proof.
  intros db.
  apply (PutWhitelist_rejects_long_identifier db
           [PlayerW.mk "Y" "" "u2"; PlayerW.mk "Z" (Sample.doubled 16 "0") ""]).
  apply Exists_cons_tl, Exists_cons_hd. vm_compute. reflexivity.
Defined.

Section listing_extra.
Implicit Types (b : bucket).

Lemma field_terse n d p p' t :
  Player_field n d p = Ok p' → ∃ t', TersePlayer_field n d t = Ok t'.
Proof.
  destruct t as [tu ts tn tl tlast]. unfold Player_field, TersePlayer_field.
  repeat match goal with
  | |- context [String.eqb n ?s] =>
      destruct (String.eqb_spec n s) as [->|?];
        [cbn; destruct d; cbn; intros H1; try discriminate; by eexists|]
  end.
  by eexists.
Qed.

Lemma members_terse ms p p' t :
  members_into Player_field ms p = Ok p' →
  ∃ t', members_into TersePlayer_field ms t = Ok t'.
Proof.
  revert p t. induction ms as [|[n d] ms IH]; intros p t; simpl; [by eexists|].
  destruct (Player_field n d p) as [p1|] eqn:Hp; [|discriminate].
  destruct (field_terse _ _ _ _ t Hp) as [t1 ->]. apply IH.
Qed.

(** A value that reads as a full record reads as a terse view of it. *)
Lemma Unmarshal_Player_terse v p :
  Unmarshal_Player v = Ok p → ∃ t, Unmarshal_TersePlayer v = Ok t ∧ agree p t.
Proof.
  intros Hp.
  assert (∃ t, Unmarshal_TersePlayer v = Ok t) as [t Ht].
  { revert Hp. unfold Unmarshal_Player, Unmarshal_TersePlayer, Unmarshal.
    destruct v; try discriminate; [by eexists|]. apply members_terse. }
  exists t. split; [done|]. by eapply Unmarshal_agree.
Qed.

Lemma ListPlayers_keyed db :
  keyed_by_uid (Bolt.players db) →
  ∃ out, ListPlayers db = Ok out
    ∧ Forall2 (λ kv t, ∃ p, Unmarshal_Player kv.2 = Ok p ∧ Player.PlayerUid p = kv.1
                           ∧ agree p t) (listed (Bolt.players db)) out.
Proof.
  intros Hk.
  assert (keyed_by_uid (listed (Bolt.players db))) as Hl.
  { apply Forall_forall. intros kv [_ Hin]%list_elem_of_filter.
    unfold keyed_by_uid in Hk. rewrite Forall_forall in Hk. by apply Hk. }
  assert (∃ out, Forall2 (λ kv t, ∃ p, Unmarshal_Player kv.2 = Ok p
            ∧ Player.PlayerUid p = kv.1 ∧ Unmarshal_TersePlayer kv.2 = Ok t ∧ agree p t)
            (listed (Bolt.players db)) out) as [out Hout].
  { induction Hl as [|kv l (p & Hp & Hu) _ [out IH]]; [by exists []|].
    destruct (Unmarshal_Player_terse _ _ Hp) as (t & Ht & Ha).
    exists (t :: out). constructor; [|done]. by exists p. }
  exists out. split.
  - unfold ListPlayers, View.
    pose proof (list_loop (Bolt.players db) []) as H.
    assert (Forall2 (λ kv t, Unmarshal_TersePlayer kv.2 = Ok t)
              (listed (Bolt.players db)) out) as Hdec.
    { eapply Forall2_impl; [exact Hout|]. by intros kv t (p & _ & _ & Ht & _). }
    destruct (ForEach _ list_player []) as [acc' [[]|e]].
    + destruct H as (out' & -> & H). simpl. f_equal. eapply Forall2_functional; eauto.
    + exfalso. eauto.
  - eapply Forall2_impl; [exact Hout|]. intros kv t (p & ? & ? & _ & ?). by exists p.
Qed.

End listing_extra.

(** X16: on a well-formed players bucket [ListPlayers] succeeds; the uids
    it lists are the keys without the placeholder pattern, in key order, and
    every listed view agrees with the record that [GetPlayer] returns for
    its uid. *)
Theorem ListPlayers_agrees_with_GetPlayer db :
  players_ok (Bolt.players db) →
  ∃ out, ListPlayers db = Ok out
    ∧ TersePlayer.PlayerUid <$> out = (listed (Bolt.players db)).*1
    ∧ Forall (λ t, Contains (TersePlayer.PlayerUid t) placeholder = false
                   ∧ ∃ p, GetPlayer db (TersePlayer.PlayerUid t) = Ok p ∧ agree p t) out.
Proof.
  intros [Hok Hk]. destruct (ListPlayers_keyed db Hk) as (out & Hout & Hall).
  assert (sorted (Bolt.players db) = true) as Hs by (by apply andb_true_iff in Hok as [? _]).
  exists out. split; [done|]. split.
  - clear Hout. induction Hall as [|kv t l out (p & _ & Hu & Ha & _) _ IH]; [done|].
    rewrite !fmap_cons, IH. f_equal. congruence.
  - apply Forall_forall. intros t Ht.
    destruct (Forall2_elem_r _ _ _ _ Hall Ht) as ([k v] & Hin & p & Hp & Hu & Ha).
    apply list_elem_of_filter in Hin as [Hc Hin]. simpl in *.
    destruct Ha as [Htu Ha]. rewrite Htu, Hu. split; [done|].
    exists p. split; [|done].
    unfold GetPlayer, View. by rewrite (elem_Get _ _ _ Hs Hin).
Qed.

Lemma ListPlayers_agrees_with_GetPlayer_witness :
  let db := mkDB [("00000000000000000000000000000001",
                   Sample.stored (Sample.player "00000000000000000000000000000001" "" "" "" ""));
                  ("A1B2", Sample.stored (Sample.player "A1B2" "s1" "Al" "1.1.1.1" ""));
                  ("C3", Sample.stored (Sample.player "C3" "s3" "Cy" "3.3.3.3" ""))] None in
  ∃ out, ListPlayers db = Ok out
    ∧ TersePlayer.PlayerUid <$> out = ["A1B2"; "C3"]
    ∧ Forall (λ t, Contains (TersePlayer.PlayerUid t) placeholder = false
                   ∧ ∃ p, GetPlayer db (TersePlayer.PlayerUid t) = Ok p ∧ agree p t) out.
Proof.
  intros db. apply (ListPlayers_agrees_with_GetPlayer db). split.
  - vm_compute. reflexivity.
  - repeat (constructor; [eexists; split; vm_compute; reflexivity|]). constructor.
Defined.



